(** * cachetools: the memoizing decorator helpers of [_decorators.py]

    A shallow embedding of [src/cachetools/_decorators.py].  Every closure
    returned by the helpers becomes a state transformer over the variables
    the closure captures ([hits], [misses], [pending]), the cache object it
    shares with its caller, and the hidden state of the wrapped function.

    The cache, the key function, the locks and the wrapped function are
    collaborators supplied at construction: they are section parameters
    here. *)

From stdpp Require Import base option list functions gmap sets.

(** ** Collaborators *)

(** What a call produces: a value, or an exception raised to the caller. *)
Inductive outcome (V E : Type) : Type :=
| Return (v : V)
| Raise (e : E).
Arguments Return {V E} v.
Arguments Raise {V E} e.

(** The mapping protocol the helpers use on the cache object.
    - [getitem k c] is [c[k]]: [None] stands for [KeyError]; a lookup may
      reorder the cache (as LRU caches do), so it returns the cache too;
    - [setitem k v c] is [c[k] = v]: [None] stands for [ValueError]
      ("value too large"), raised before the cache is touched;
    - [clear c] is [c.clear()]. *)
Class CacheContract (K V C : Type) := {
  getitem : K → C → option V * C;
  setitem : K → V → C → option C;
  clear : C → C
}.

(** Modelled from the spec: [cache.setdefault] is a method of the cache
    class, which is not part of this file.  The spec's insert-if-absent
    "stores a value only if no value is already present for the key,
    returning whichever value ends up stored" and "may be synthesized from
    lookup+insert"; [None] stands for the [ValueError] of the insertion. *)
Definition setdefault `{CacheContract K V C} (k : K) (v : V) (c : C)
  : option V * C :=
  match getitem k c with
  | (Some w, c1) => (Some w, c1)
  | (None, c1) =>
      match setitem k v c1 with
      | Some c2 => (Some v, c2)
      | None => (None, c1)
      end
  end.

(** The contents of a cache, as the finite map it represents.  A cache is
    lawful when lookups answer from the contents and leave them alone,
    an accepted insertion binds its key, and [clear] empties it. *)
Class CacheLaws (K V C : Type) `{Countable K} `{CacheContract K V C} := {
  contents : C → gmap K V;
  getitem_contents k c : (getitem k c).1 = contents c !! k;
  getitem_keeps k c : contents (getitem k c).2 = contents c;
  setitem_binds k v c c' : setitem k v c = Some c' → contents c' !! k = Some v;
  clear_contents c : contents (clear c) = ∅
}.

(** A cache that accepts and retains every insertion. *)
Class Retaining (K V C : Type) `{CacheLaws K V C} := {
  setitem_accepts k v c : is_Some (setitem k v c);
  setitem_retains k v c c' :
    setitem k v c = Some c' → contents c' = <[k:=v]> (contents c)
}.

(** A cache that rejects every insertion. *)
Class Rejecting (K V C : Type) `{CacheLaws K V C} := {
  setitem_rejects k v c : setitem k v c = None
}.

(** A cache that holds only what was put into it: an accepted insertion
    may drop other entries to make room, and never invents or alters
    one. *)
Class Evicting (K V C : Type) `{CacheLaws K V C} := {
  setitem_evicts k v c c' :
    setitem k v c = Some c' → contents c' ⊆ <[k:=v]> (contents c)
}.

(** A cache that never drops an entry: an insertion is rejected, or it
    adds its entry and leaves the others as they are. *)
Class Keeping (K V C : Type) `{CacheLaws K V C} := {
  setitem_keeps k v c c' :
    setitem k v c = Some c' → contents c' = <[k:=v]> (contents c)
}.

(** Every value a cache holds is the one the function [f] gives for the
    arguments with that key. *)
Definition coherent {K V A : Type} `{Countable K}
    (f : A → V) (key : A → K) (m : gmap K V) : Prop :=
  ∀ a v, m !! key a = Some v → v = f a.

(** ** The function wrappers *)

Section Decorators.
Context {K : Type} `{Countable K}.
Context {V A E C W Info : Type}.
Context `{CacheContract K V C}.

(** [func] applied to the call arguments: the wrapped function, with
    the hidden state [W] it reads and writes; it does not touch the
    wrapper's variables. *)
Variable func : A → W → outcome V E * W.
(** [key] applied to the call arguments. *)
Variable key : A → K.
(** [info(hits, misses)]. *)
Variable info : nat → nat → Info.
(** The exception [KeyError(k)] that [set.remove] raises. *)
Variable KeyError : K → E.

(** The variables a wrapper shares between its calls: the cache passed
    at construction, the counters and the pending set of the enclosing
    helper, and the state of the wrapped function. *)
Record state := State {
  cache : C;
  hits : nat;
  misses : nat;
  pending : gset K;
  world : W
}.

Definition set_cache (c : C) (s : state) : state :=
  State c (hits s) (misses s) (pending s) (world s).
Definition set_hits (n : nat) (s : state) : state :=
  State (cache s) n (misses s) (pending s) (world s).
Definition set_misses (n : nat) (s : state) : state :=
  State (cache s) (hits s) n (pending s) (world s).
Definition set_pending (p : gset K) (s : state) : state :=
  State (cache s) (hits s) (misses s) p (world s).
Definition set_world (w : W) (s : state) : state :=
  State (cache s) (hits s) (misses s) (pending s) w.

(** A freshly built wrapper: [hits = misses = 0], [pending = set()]. *)
Definition fresh (c : C) (w : W) : state := State c 0 0 ∅ w.

(** *** [_cached_cond_info] *)

(** Lines 13-19, run with the condition's lock held after [wait_for]
    has returned: the lookup, and the bookkeeping of its answer. *)
Definition _cached_cond_info_lookup (k : K) (s : state) : option V * state :=
  match getitem k (cache s) with
  | (Some result, c) => (Some result, set_hits (S (hits s)) (set_cache c s))
  | (None, c) =>
      (None, set_misses (S (misses s))
               (set_pending ({[k]} ∪ pending s) (set_cache c s)))
  end.

(** Lines 22-27, run with the lock held: [cache[k] = v], a [ValueError]
    being passed over. *)
Definition _cached_cond_info_store (k : K) (v : V) (s : state) : state :=
  match setitem k v (cache s) with
  | Some c => set_cache c s
  | None => s
  end.

(** Lines 29-31, run with the lock held: [pending.remove(k)], which
    raises [KeyError] ([None]) when [k] is not pending.  The
    [notify_all] that follows acts on the waiting threads, see
    [cond_step]. *)
Definition _cached_cond_info_cleanup (k : K) (s : state) : option state :=
  if decide (k ∈ pending s) then Some (set_pending (pending s ∖ {[k]}) s)
  else None.

(** The [try ... finally] of lines 20-31 once the body has ended with
    [o]: an exception of the cleanup replaces [o]. *)
Definition _cached_cond_info_finally (k : K) (o : outcome V E) (s : state)
  : outcome V E * state :=
  match _cached_cond_info_cleanup k s with
  | Some s' => (o, s')
  | None => (Raise (KeyError k), s)
  end.

(** A call made while no other thread runs.  [None]: [wait_for] never
    returns, since nobody is there to take [k] out of [pending]. *)
Definition _cached_cond_info_wrapper (a : A) (s : state)
  : option (outcome V E * state) :=
  let k := key a in
  if decide (k ∈ pending s) then None
  else
    match _cached_cond_info_lookup k s with
    | (Some result, s1) => Some (Return result, s1)
    | (None, s1) =>
        match func a (world s1) with
        | (Return v, w) =>
            Some (_cached_cond_info_finally k (Return v)
                    (_cached_cond_info_store k v (set_world w s1)))
        | (Raise e, w) =>
            Some (_cached_cond_info_finally k (Raise e) (set_world w s1))
        end
    end.

(** Lines 35-37, under the condition's lock. *)
Definition _cached_cond_info_cache_clear (s : state) : state :=
  set_misses 0 (set_hits 0 (set_cache (clear (cache s)) s)).

Definition _cached_cond_info_cache_info (s : state) : Info :=
  info (hits s) (misses s).

(** *** [_cached_locked_info] *)

(** Lines 54-60, run with the lock held. *)
Definition _cached_locked_info_lookup (k : K) (s : state) : option V * state :=
  match getitem k (cache s) with
  | (Some result, c) => (Some result, set_hits (S (hits s)) (set_cache c s))
  | (None, c) => (None, set_misses (S (misses s)) (set_cache c s))
  end.

(** Lines 62-67 (and 139-144), run with the lock held:
    [cache.setdefault(k, v)], or [v] on [ValueError]. *)
Definition _cached_locked_store (k : K) (v : V) (s : state) : V * state :=
  match setdefault k v (cache s) with
  | (Some r, c) => (r, set_cache c s)
  | (None, c) => (v, set_cache c s)
  end.

Definition _cached_locked_info_wrapper (a : A) (s : state)
  : outcome V E * state :=
  let k := key a in
  match _cached_locked_info_lookup k s with
  | (Some result, s1) => (Return result, s1)
  | (None, s1) =>
      match func a (world s1) with
      | (Return v, w) =>
          let '(r, s2) := _cached_locked_store k v (set_world w s1) in
          (Return r, s2)
      | (Raise e, w) => (Raise e, set_world w s1)
      end
  end.

(** Lines 71-73, under the lock. *)
Definition _cached_locked_info_cache_clear (s : state) : state :=
  set_misses 0 (set_hits 0 (set_cache (clear (cache s)) s)).

Definition _cached_locked_info_cache_info (s : state) : Info :=
  info (hits s) (misses s).

(** *** [_cached_unlocked_info] *)

Definition _cached_unlocked_info_wrapper (a : A) (s : state)
  : outcome V E * state :=
  let k := key a in
  match getitem k (cache s) with
  | (Some result, c) => (Return result, set_hits (S (hits s)) (set_cache c s))
  | (None, c) =>
      let s1 := set_misses (S (misses s)) (set_cache c s) in
      match func a (world s1) with
      | (Return v, w) =>
          match setitem k v (cache s1) with
          | Some c' => (Return v, set_cache c' (set_world w s1))
          | None => (Return v, set_world w s1)
          end
      | (Raise e, w) => (Raise e, set_world w s1)
      end
  end.

Definition _cached_unlocked_info_cache_clear (s : state) : state :=
  set_misses 0 (set_hits 0 (set_cache (clear (cache s)) s)).

Definition _cached_unlocked_info_cache_info (s : state) : Info :=
  info (hits s) (misses s).

(** *** [_uncached_info] *)

Definition _uncached_info_wrapper (a : A) (s : state) : outcome V E * state :=
  let s1 := set_misses (S (misses s)) s in
  let '(o, w) := func a (world s1) in
  (o, set_world w s1).

Definition _uncached_info_cache_clear (s : state) : state :=
  set_misses 0 s.

Definition _uncached_info_cache_info (s : state) : Info :=
  info 0 (misses s).

(** *** [_cached_locked] *)

(** Lines 133-137, run with the lock held. *)
Definition _cached_locked_lookup (k : K) (s : state) : option V * state :=
  let '(r, c) := getitem k (cache s) in (r, set_cache c s).

Definition _cached_locked_wrapper (a : A) (s : state) : outcome V E * state :=
  let k := key a in
  match _cached_locked_lookup k s with
  | (Some result, s1) => (Return result, s1)
  | (None, s1) =>
      match func a (world s1) with
      | (Return v, w) =>
          let '(r, s2) := _cached_locked_store k v (set_world w s1) in
          (Return r, s2)
      | (Raise e, w) => (Raise e, set_world w s1)
      end
  end.

Definition _cached_locked_cache_clear (s : state) : state :=
  set_cache (clear (cache s)) s.

(** *** [_cached_unlocked] *)

Definition _cached_unlocked_wrapper (a : A) (s : state) : outcome V E * state :=
  let k := key a in
  match getitem k (cache s) with
  | (Some result, c) => (Return result, set_cache c s)
  | (None, c) =>
      let s1 := set_cache c s in
      match func a (world s1) with
      | (Return v, w) =>
          match setitem k v (cache s1) with
          | Some c' => (Return v, set_cache c' (set_world w s1))
          | None => (Return v, set_world w s1)
          end
      | (Raise e, w) => (Raise e, set_world w s1)
      end
  end.

Definition _cached_unlocked_cache_clear (s : state) : state :=
  set_cache (clear (cache s)) s.

(** *** [_uncached] *)

Definition _uncached_wrapper (a : A) (s : state) : outcome V E * state :=
  let '(o, w) := func a (world s) in (o, set_world w s).

Definition _uncached_cache_clear (s : state) : state := s.

End Decorators.

Arguments state K {_ _} C W.

(** ** The strategy selector *)

(** The helper [_cached_wrapper] hands the construction to. *)
Inductive strategy : Type :=
| UncachedInfo | UnlockedInfo | CondInfo | LockedInfo
| Uncached | Unlocked | Locked.

(** What [_cached_wrapper] asks of the lock object:
    [hasattr(lock, "wait_for")] and [hasattr(lock, "notify_all")]. *)
Record lock_object := LockObject {
  has_wait_for : bool;
  has_notify_all : bool
}.

(** [_cached_wrapper(func, cache, key, lock=None, cond=None, info=None)]:
    [None] is Python's [None].  The [cond] argument is accepted and not
    looked at. *)
Definition _cached_wrapper {Cache Cond Info : Type}
    (cache : option Cache) (lock : option lock_object)
    (cond : option Cond) (info : option Info) : strategy :=
  match info with
  | Some _ =>
      match cache, lock with
      | None, _ => UncachedInfo
      | Some _, None => UnlockedInfo
      | Some _, Some l =>
          if has_wait_for l && has_notify_all l then CondInfo else LockedInfo
      end
  | None =>
      match cache, lock with
      | None, _ => Uncached
      | Some _, None => Unlocked
      | Some _, Some _ => Locked
      end
  end.

(** [wrapper.cache_info] is [None] exactly when no [info] was given. *)
Definition has_cache_info (s : strategy) : bool :=
  match s with
  | UncachedInfo | UnlockedInfo | CondInfo | LockedInfo => true
  | Uncached | Unlocked | Locked => false
  end.

(** Whether a strategy looks into a cache at all. *)
Definition caching (s : strategy) : bool :=
match s with
| UncachedInfo | Uncached => false
| _ => true
end.

(** A counter after one more event, where the strategy has counters. *)
Definition count (s : strategy) (n : nat) : nat :=
if has_cache_info s then S n else n.

Section Dispatch.
Context {K : Type} `{Countable K}.
Context {V A E C W Info : Type}.
Context `{CacheContract K V C}.
Variable func : A → W → outcome V E * W.
Variable key : A → K.
Variable info : nat → nat → Info.
Variable KeyError : K → E.

(** The wrapper a strategy stands for, called while no other thread
    runs. *)
Definition call (s : strategy) (a : A) (st : state K C W)
  : option (outcome V E * state K C W) :=
  match s with
  | UncachedInfo => Some (_uncached_info_wrapper func a st)
  | UnlockedInfo => Some (_cached_unlocked_info_wrapper func key a st)
  | CondInfo => _cached_cond_info_wrapper func key KeyError a st
  | LockedInfo => Some (_cached_locked_info_wrapper func key a st)
  | Uncached => Some (_uncached_wrapper func a st)
  | Unlocked => Some (_cached_unlocked_wrapper func key a st)
  | Locked => Some (_cached_locked_wrapper func key a st)
  end.

Definition cache_clear (s : strategy) (st : state K C W) : state K C W :=
  match s with
  | UncachedInfo => _uncached_info_cache_clear st
  | UnlockedInfo => _cached_unlocked_info_cache_clear st
  | CondInfo => _cached_cond_info_cache_clear st
  | LockedInfo => _cached_locked_info_cache_clear st
  | Uncached => _uncached_cache_clear st
  | Unlocked => _cached_unlocked_cache_clear st
  | Locked => _cached_locked_cache_clear st
  end.

(** [None]: the attribute [cache_info] is [None]. *)
Definition cache_info (s : strategy) (st : state K C W) : option Info :=
  match s with
  | UncachedInfo => Some (_uncached_info_cache_info info st)
  | UnlockedInfo => Some (_cached_unlocked_info_cache_info info st)
  | CondInfo => Some (_cached_cond_info_cache_info info st)
  | LockedInfo => Some (_cached_locked_info_cache_info info st)
  | Uncached | Unlocked | Locked => None
  end.

(** A run of calls, one after the other, with what each produced;
    [None] when one of them never returns. *)
Fixpoint calls (s : strategy) (l : list A) (st : state K C W)
  : option (list (outcome V E) * state K C W) :=
  match l with
  | [] => Some ([], st)
  | a :: l' =>
      match call s a st with
      | Some (o, st1) =>
          match calls s l' st1 with
          | Some (os, st2) => Some (o :: os, st2)
          | None => None
          end
      | None => None
      end
  end.

(** The wrapped function called on each argument in turn, with no
    wrapper around it. *)
Fixpoint direct (l : list A) (w : W) : list (outcome V E) * W :=
match l with
| [] => ([], w)
| a :: l' =>
    let '(o, w1) := func a w in
    let '(os, w2) := direct l' w1 in
    (o :: os, w2)
end.
End Dispatch.

(** ** Threads

    Several threads sharing one wrapper.  A thread is at a program point
    of the call it makes; the lock is free or held by one thread; a step
    is what one thread does between two points where another thread may
    run.  The statements under a [with] block are run in one step by the
    thread that holds the lock; entering the block is a step of its own,
    possible only while the lock is free.  The wrapped function runs with
    the lock released; it only touches its own state, so its run is one
    step as well: it returns or raises, and does not call the wrapper
    itself. *)

Section Threads.
Context {K : Type} `{Countable K}.
Context {V A E C W : Type}.
Context `{CacheContract K V C}.
Variable func : A → W → outcome V E * W.
Variable key : A → K.
Variable KeyError : K → E.

(** Program points of a call of [wrapper] or [cache_clear]. *)
Inductive pc : Type :=
| Start (a : A)               (* called; about to enter the first [with] *)
| WaitFor (a : A) (k : K)     (* lock held; [wait_for] tests its predicate *)
| Blocked (a : A) (k : K)     (* in [wait]: lock released, asleep *)
| Notified (a : A) (k : K)    (* woken; about to take the lock again *)
| Lookup (a : A) (k : K)      (* lock held; about to read [cache[k]] *)
| Call (a : A) (k : K)        (* lock released; about to run [func] *)
| Store (k : K) (v : V)       (* about to enter the [with] that stores *)
| Storing (k : K) (v : V)     (* lock held; about to store *)
| Finally (k : K) (o : outcome V E)  (* about to enter the [with] of [finally] *)
| Cleanup (k : K) (o : outcome V E)  (* lock held; about to [pending.remove] *)
| Done (o : outcome V E)      (* the call has returned or raised *)
| ClearStart                  (* [cache_clear] called *)
| Clearing                    (* lock held; about to clear *)
| Cleared.                    (* [cache_clear] has returned *)

Record config := Config {
  shared : state K C W;
  lock : option nat;
  threads : gmap nat pc
}.

(** [with lock:] entered by thread [t], which goes on at [p]. *)
Definition acquire (t : nat) (p : pc) (cf : config) : option config :=
  match lock cf with
  | None => Some (Config (shared cf) (Some t) (<[t:=p]> (threads cf)))
  | Some _ => None
  end.

(** The end of a [with] block: the shared variables are as the block
    left them, the lock is free, and [t] goes on at [p]. *)
Definition release (t : nat) (p : pc) (s : state K C W) (cf : config)
  : config :=
  Config s None (<[t:=p]> (threads cf)).

(** [cond.notify_all()]: every thread asleep in [wait] is woken. *)
Definition wake (p : pc) : pc :=
  match p with
  | Blocked a k => Notified a k
  | _ => p
  end.
Definition notify_all (ths : gmap nat pc) : gmap nat pc := wake <$> ths.

(** One step of thread [t] through [_cached_cond_info]'s [wrapper]
    (lines 10-31) or [cache_clear] (lines 35-37).  [None]: [t] cannot
    move now. *)
Definition cond_step (t : nat) (cf : config) : option config :=
  match threads cf !! t with
  | Some (Start a) => acquire t (WaitFor a (key a)) cf
  | Some (WaitFor a k) =>
      if decide (k ∈ pending (shared cf))
      then Some (release t (Blocked a k) (shared cf) cf)
      else Some (Config (shared cf) (lock cf) (<[t:=Lookup a k]> (threads cf)))
  | Some (Notified a k) => acquire t (WaitFor a k) cf
  | Some (Lookup a k) =>
      match _cached_cond_info_lookup k (shared cf) with
      | (Some result, s) => Some (release t (Done (Return result)) s cf)
      | (None, s) => Some (release t (Call a k) s cf)
      end
  | Some (Call a k) =>
      match func a (world (shared cf)) with
      | (Return v, w) =>
          Some (Config (set_world w (shared cf)) (lock cf)
                  (<[t:=Store k v]> (threads cf)))
      | (Raise e, w) =>
          Some (Config (set_world w (shared cf)) (lock cf)
                  (<[t:=Finally k (Raise e)]> (threads cf)))
      end
  | Some (Store k v) => acquire t (Storing k v) cf
  | Some (Storing k v) =>
      Some (release t (Finally k (Return v))
              (_cached_cond_info_store k v (shared cf)) cf)
  | Some (Finally k o) => acquire t (Cleanup k o) cf
  | Some (Cleanup k o) =>
      match _cached_cond_info_cleanup k (shared cf) with
      | Some s => Some (Config s None (<[t:=Done o]> (notify_all (threads cf))))
      | None => Some (release t (Done (Raise (KeyError k))) (shared cf) cf)
      end
  | Some ClearStart => acquire t Clearing cf
  | Some Clearing =>
      Some (release t Cleared (_cached_cond_info_cache_clear (shared cf)) cf)
  | Some (Blocked _ _) | Some (Done _) | Some Cleared | None => None
  end.

(** One step of thread [t] through the [wrapper] or [cache_clear] of
    [_cached_locked_info] (lines 53-67, 71-73) or of [_cached_locked]
    (lines 132-144, 147-148), which differ in what they do at the
    lookup and at the clearing. *)
Definition locked_step
    (lookup : K → state K C W → option V * state K C W)
    (clearing : state K C W → state K C W)
    (t : nat) (cf : config) : option config :=
  match threads cf !! t with
  | Some (Start a) => acquire t (Lookup a (key a)) cf
  | Some (Lookup a k) =>
      match lookup k (shared cf) with
      | (Some result, s) => Some (release t (Done (Return result)) s cf)
      | (None, s) => Some (release t (Call a k) s cf)
      end
  | Some (Call a k) =>
      match func a (world (shared cf)) with
      | (Return v, w) =>
          Some (Config (set_world w (shared cf)) (lock cf)
                  (<[t:=Store k v]> (threads cf)))
      | (Raise e, w) =>
          Some (Config (set_world w (shared cf)) (lock cf)
                  (<[t:=Done (Raise e)]> (threads cf)))
      end
  | Some (Store k v) => acquire t (Storing k v) cf
  | Some (Storing k v) =>
      let '(r, s) := _cached_locked_store k v (shared cf) in
      Some (release t (Done (Return r)) s cf)
  | Some ClearStart => acquire t Clearing cf
  | Some Clearing => Some (release t Cleared (clearing (shared cf)) cf)
  | _ => None
  end.

Definition _cached_locked_info_step : nat → config → option config :=
  locked_step _cached_locked_info_lookup _cached_locked_info_cache_clear.

Definition _cached_locked_step : nat → config → option config :=
  locked_step _cached_locked_lookup _cached_locked_cache_clear.

(** A schedule names the thread to run at each turn; a thread that
    cannot move when its turn comes leaves everything as it is. *)
Definition run (step : nat → config → option config)
    (sched : list nat) (cf : config) : config :=
  foldl (λ cf t, default cf (step t cf)) cf sched.

(** Where every run starts: a fresh wrapper, the lock free, and each
    thread about to call [wrapper] or [cache_clear]. *)
Definition entering (p : pc) : bool :=
  match p with
  | Start _ | ClearStart => true
  | _ => false
  end.

Definition initial (cf : config) : Prop :=
  lock cf = None ∧ pending (shared cf) = ∅ ∧
  hits (shared cf) = 0 ∧ misses (shared cf) = 0 ∧
  map_Forall (λ _ p, entering p = true) (threads cf).

Definition reachable (step : nat → config → option config) (cf : config)
  : Prop :=
  ∃ cf0 sched, initial cf0 ∧ cf = run step sched cf0.


(** The call of the thread has ended. *)
Definition finished (p : pc) : bool :=
  match p with
  | Done _ | Cleared => true
  | _ => false
  end.

(** What a program point says of its thread. *)
Definition holding (p : pc) : bool :=
  match p with
  | WaitFor _ _ | Lookup _ _ | Storing _ _ | Cleanup _ _ | Clearing => true
  | _ => false
  end.

(** The key a thread has put in [pending] and not yet taken out. *)
Definition owns (p : pc) : option K :=
  match p with
  | Call _ k | Store k _ | Storing k _ | Finally k _ | Cleanup k _ => Some k
  | _ => None
  end.


(** The call arguments and the key a thread carries before its
    lookup. *)
Definition request (p : pc) : option (A * K) :=
  match p with
  | WaitFor a k | Blocked a k | Notified a k | Lookup a k | Call a k =>
      Some (a, k)
  | _ => None
  end.

(** The steps a call that owns a key has left, at most, until it has
    taken the key out of [pending] and notified the sleepers. *)
Definition remaining (p : pc) : nat :=
  match p with
  | Call _ _ => 5
  | Store _ _ => 4
  | Storing _ _ => 3
  | Finally _ _ => 2
  | Cleanup _ _ => 1
  | _ => 0
  end.
End Threads.

Arguments pc : clear implicits.
Arguments config K {_ _} V A E C W.

(** ** The method wrappers *)

Section Methods.
Context {K : Type} `{Countable K}.
Context {V A E C W I L Lk : Type} `{EqDecision L}.
Context `{CacheContract K V C}.

(** [method(self, ...)], with the state it reads and writes. *)
Variable method : I → A → W → outcome V E * W.
(** The argument [cache], called as [cache(self)]: the cache object of
    the instance, named by its location, or [None]. *)
Variable cache_of : I → option L.
(** [key(self, ...)]. *)
Variable key : I → A → K.
(** The argument [lock], called as [lock(self)]. *)
Variable lock_of : I → Lk.

(** The cache objects by location, the locks some other thread holds
    at present, and the state of the method. *)
Record mstate := MState {
  caches : L → C;
  busy : Lk → bool;
  mworld : W
}.

Definition set_caches (h : L → C) (s : mstate) : mstate :=
  MState h (busy s) (mworld s).
Definition set_mworld (w : W) (s : mstate) : mstate :=
  MState (caches s) (busy s) w.

(** [_cachedmethod_locked]'s [wrapper] called while no other thread
    runs.  [None]: the call waits for a lock that another thread
    holds. *)
Definition _cachedmethod_locked_wrapper (self : I) (a : A) (s : mstate)
  : option (outcome V E * mstate) :=
  match cache_of self with
  | None =>
      let '(o, w) := method self a (mworld s) in Some (o, set_mworld w s)
  | Some c =>
      let k := key self a in
      if busy s (lock_of self) then None
      else
        match getitem k (caches s c) with
        | (Some result, c1) =>
            Some (Return result, set_caches (<[c:=c1]> (caches s)) s)
        | (None, c1) =>
            let s1 := set_caches (<[c:=c1]> (caches s)) s in
            match method self a (mworld s1) with
            | (Return v, w) =>
                let s2 := set_mworld w s1 in
                if busy s2 (lock_of self) then None
                else
                  match setdefault k v (caches s2 c) with
                  | (Some r, c2) =>
                      Some (Return r, set_caches (<[c:=c2]> (caches s2)) s2)
                  | (None, c2) =>
                      Some (Return v, set_caches (<[c:=c2]> (caches s2)) s2)
                  end
            | (Raise e, w) => Some (Raise e, set_mworld w s1)
            end
        end
  end.

Definition _cachedmethod_locked_cache_clear (self : I) (s : mstate)
  : option mstate :=
  match cache_of self with
  | Some c =>
      if busy s (lock_of self) then None
      else Some (set_caches (<[c:=clear (caches s c)]> (caches s)) s)
  | None => Some s
  end.

Definition _cachedmethod_unlocked_wrapper (self : I) (a : A) (s : mstate)
  : outcome V E * mstate :=
  match cache_of self with
  | None => let '(o, w) := method self a (mworld s) in (o, set_mworld w s)
  | Some c =>
      let k := key self a in
      match getitem k (caches s c) with
      | (Some result, c1) =>
          (Return result, set_caches (<[c:=c1]> (caches s)) s)
      | (None, c1) =>
          let s1 := set_caches (<[c:=c1]> (caches s)) s in
          match method self a (mworld s1) with
          | (Return v, w) =>
              let s2 := set_mworld w s1 in
              match setitem k v (caches s2 c) with
              | Some c2 => (Return v, set_caches (<[c:=c2]> (caches s2)) s2)
              | None => (Return v, s2)
              end
          | (Raise e, w) => (Raise e, set_mworld w s1)
          end
      end
  end.

Definition _cachedmethod_unlocked_cache_clear (self : I) (s : mstate)
  : mstate :=
  match cache_of self with
  | Some c => set_caches (<[c:=clear (caches s c)]> (caches s)) s
  | None => s
  end.

(** What one cache object and the method's state look like to a
    function wrapper built on them. *)
Definition view (c : L) (s : mstate) : state K C W :=
  State (caches s c) 0 0 ∅ (mworld s).
End Methods.

Arguments mstate : clear implicits.

(** [_cachedmethod_wrapper(func, cache, key, lock=None)]. *)
Inductive method_strategy : Type := MethodUnlocked | MethodLocked.

Definition _cachedmethod_wrapper {Lock : Type} (lock : option Lock)
  : method_strategy :=
  match lock with
  | None => MethodUnlocked
  | Some _ => MethodLocked
  end.

(** ** Two caches to run the wrappers on *)

(** A [dict]: every insertion is accepted and kept. *)
#[export] Instance dict_cache {K : Type} `{Countable K} {V : Type}
  : CacheContract K V (gmap K V) := {|
  getitem k c := (c !! k, c);
  setitem k v c := Some (<[k:=v]> c);
  clear _ := ∅
|}.

(** A cache of at most [maxsize] entries that empties itself to make
    room; with [maxsize = 0] every insertion is rejected. *)
Record flushing (K V : Type) `{Countable K} := Flushing {
  maxsize : nat;
  items : gmap K V
}.
Arguments Flushing {K V _ _} maxsize items.
Arguments maxsize {K V _ _} _.
Arguments items {K V _ _} _.

#[export] Instance flushing_cache {K : Type} `{Countable K} {V : Type}
  : CacheContract K V (flushing K V) := {|
  getitem k c := (items c !! k, c);
  setitem k v c :=
    if decide (maxsize c = 0) then None
    else if decide (size (items c) < maxsize c)
         then Some (Flushing (maxsize c) (<[k:=v]> (items c)))
         else Some (Flushing (maxsize c) {[k := v]});
  clear c := Flushing (maxsize c) ∅
|}.

(** A cache with no room at all: every insertion is rejected. *)
#[export] Instance full_cache {K V : Type} : CacheContract K V unit := {|
  getitem _ c := (None, c);
  setitem _ _ _ := None;
  clear c := c
|}.

(** ** What holds of every run of the condition-gated wrapper *)

Section Invariant.
Context {K : Type} `{Countable K}.
Context {V A E C W : Type}.
Context `{!CacheContract K V C}.
Variable key : A → K.

(** The lock is held by exactly the thread that is inside a [with]
    block; the pending set holds exactly the keys of the calls between
    their miss and their cleanup, one call per key; a lookup is made with
    the key not pending, and a thread sleeps in [wait] only on a pending
    key. *)
Record cond_inv (cf : config K V A E C W) : Prop := CondInv {
  inv_holder t p :
    threads cf !! t = Some p → holding p = true → lock cf = Some t;
  inv_held t :
    lock cf = Some t → ∃ p, threads cf !! t = Some p ∧ holding p = true;
  inv_owned t p k :
    threads cf !! t = Some p → owns p = Some k → k ∈ pending (shared cf);
  inv_owner t t' p p' k :
    threads cf !! t = Some p → threads cf !! t' = Some p' →
    owns p = Some k → owns p' = Some k → t = t';
  inv_pending k :
    k ∈ pending (shared cf) →
    ∃ t p, threads cf !! t = Some p ∧ owns p = Some k;
  inv_request t p a k :
    threads cf !! t = Some p → request p = Some (a, k) → k = key a;
  inv_lookup t a k :
    threads cf !! t = Some (Lookup a k) → k ∉ pending (shared cf);
  inv_blocked t a k :
    threads cf !! t = Some (Blocked a k) → k ∈ pending (shared cf)
}.

End Invariant.

(** ** What holds of every run of a locked wrapper *)

Section LockedInvariant.
Context {K : Type} `{Countable K}.
Context {V A E C W : Type}.

(** The program points a locked wrapper goes through. *)
Definition locked_point (p : pc K V A E) : bool :=
  match p with
  | Start _ | Lookup _ _ | Call _ _ | Store _ _ | Storing _ _ | Done _
  | ClearStart | Clearing | Cleared => true
  | _ => false
  end.

(** The lock is held by exactly the thread that is inside a [with]
    block. *)
Record locked_inv (cf : config K V A E C W) : Prop := LockedInv {
  linv_holder t p :
    threads cf !! t = Some p → holding p = true → lock cf = Some t;
  linv_held t :
    lock cf = Some t → ∃ p, threads cf !! t = Some p ∧ holding p = true;
  linv_point t p :
    threads cf !! t = Some p → locked_point p = true
}.
End LockedInvariant.

(** ** A small setting to run the wrappers in

    Keys, values, arguments and exceptions are numbers, the cache is a
    [dict], and the state of the wrapped function counts its calls. *)

(** A function that returns twice its argument. *)
Definition double (a w : nat) : outcome nat nat * nat := (Return (2 * a), S w).

(** A function that always raises, with its argument as the exception. *)
Definition failing (a w : nat) : outcome nat nat * nat := (Raise a, S w).

(** The key of a call is its argument. *)
Definition by_argument (a : nat) : nat := a.

Definition hits_misses (h m : nat) : nat * nat := (h, m).

Definition key_error (k : nat) : nat := k.

(** Two threads call a condition-gated wrapper of [failing] with the same
    argument. *)
Definition two_callers : config nat nat nat nat (gmap nat nat) nat :=
  Config (fresh ∅ 0) None {[0 := Start 5; 1 := Start 5]}.

(** Thread 0 has missed and is about to run the function; thread 1 found
    the key pending and sleeps. *)
Definition one_computing : config nat nat nat nat (gmap nat nat) nat :=
  run (cond_step failing by_argument key_error) [0; 0; 0; 1; 1] two_callers.

(** One thread calls a condition-gated wrapper of [double]. *)
Definition one_caller : config nat nat nat nat (gmap nat nat) nat :=
  Config (fresh ∅ 0) None {[0 := Start 5]}.

(** One thread is inside [cache_clear], holding the lock. *)
Definition one_clearing : config nat nat nat nat (gmap nat nat) nat :=
  run (cond_step double by_argument key_error) [0]
    (Config (fresh ∅ 0) None {[0 := ClearStart]}).








(** Objects with a method to wrap: object 0 has no cache, the others
    share the cache at location 0; each has its own lock. *)
Definition cache_or_none (self : nat) : option nat :=
  match self with
  | 0 => None
  | S _ => Some 0
  end.

Definition double_method (self a w : nat) : outcome nat nat * nat :=
  double a w.

Definition method_key (self a : nat) : nat := a.

Definition own_lock (self : nat) : nat := self.

Definition locks_free : mstate (gmap nat nat) nat nat nat :=
  MState (λ _, ∅) (λ _, false) 0.

(** The one caller of a wrapper of [failing] has missed, the function
    has raised, and the caller holds the lock for the cleanup. *)
Definition one_cleaning : config nat nat nat nat (gmap nat nat) nat :=
  run (cond_step failing by_argument key_error) [0; 0; 0; 0; 0] one_caller.

(** The one caller of a locked wrapper of [double] has missed and is
    about to run the function. *)
Definition one_locked_computing : config nat nat nat nat (gmap nat nat) nat :=
  run (_cached_locked_info_step double by_argument) [0; 0] one_caller.

(** * Properties *)

(** ** The two caches are lawful *)

#[export] Instance dict_cache_laws {K : Type} `{Countable K} {V : Type}
  : CacheLaws K V (gmap K V).
Proof.
  refine {| contents := λ c, c |}; simpl; try done.
  intros k v c c' [= <-]. apply lookup_insert_eq.
Defined.

#[export] Instance dict_cache_retaining {K : Type} `{Countable K} {V : Type}
  : Retaining K V (gmap K V).
Proof.
  split; simpl.
  - intros k v c. by eexists.
  - by intros k v c c' [= <-].
Qed.

#[export] Instance full_cache_laws {K : Type} `{Countable K} {V : Type}
  : CacheLaws K V unit.
Proof. by refine {| contents := λ _, ∅ |}. Defined.

#[export] Instance full_cache_rejecting {K : Type} `{Countable K} {V : Type}
  : Rejecting K V unit.
Proof. by split. Qed.

#[export] Instance retaining_evicting {K V C : Type}
    `{Retaining K V C} : Evicting K V C.
Proof.
  split. intros k v c c' Hs. by rewrite (setitem_retains k v c c' Hs).
Qed.

#[export] Instance retaining_keeping {K V C : Type}
    `{Retaining K V C} : Keeping K V C.
Proof. split. apply setitem_retains. Qed.

#[export] Instance rejecting_keeping {K V C : Type}
    `{Rejecting K V C} : Keeping K V C.
Proof. split. intros k v c c' Hs. by rewrite setitem_rejects in Hs. Qed.


#[export] Instance flushing_cache_laws {K : Type} `{Countable K} {V : Type}
  : CacheLaws K V (flushing K V).
Proof.
  refine {| contents := items |}; simpl; try done.
  intros k v c c'. repeat case_decide; intros [= <-]; simpl.
  - apply lookup_insert_eq.
  - apply lookup_singleton_eq.
Defined.

#[export] Instance flushing_cache_evicting {K : Type} `{Countable K} {V : Type}
  : Evicting K V (flushing K V).
Proof.
  split. intros k v c c'. simpl. repeat case_decide; intros [= <-]; simpl.
  - done.
  - apply map_subseteq_spec. intros i x.
    rewrite lookup_singleton_Some. intros [<- <-]. apply lookup_insert_eq.
Qed.

(** ** Strategy selection *)

(** C3. The selector is a function of what is given at construction: no
    cache gives the uncached wrapper, a cache without a lock the unlocked
    one, a cache with a lock that has both [wait_for] and [notify_all]
    and [info] the condition-gated one, a cache with any other lock the
    locked one, each counting hits and misses exactly when [info] is
    given; a lock with [wait_for] and [notify_all] but no [info] gives
    the plain locked wrapper. *)
Theorem C3_strategy_selection {Cache Cond Info : Type}
    (c : Cache) (i : Info) (l : lock_object) (cond : option Cond)
    (lock : option lock_object) (w n : bool) :
  _cached_wrapper (@None Cache) lock cond (Some i) = UncachedInfo ∧
  _cached_wrapper (@None Cache) lock cond (@None Info) = Uncached ∧
  _cached_wrapper (Some c) None cond (Some i) = UnlockedInfo ∧
  _cached_wrapper (Some c) None cond (@None Info) = Unlocked ∧
  _cached_wrapper (Some c) (Some (LockObject true true)) cond (Some i)
    = CondInfo ∧
  _cached_wrapper (Some c) (Some (LockObject false n)) cond (Some i)
    = LockedInfo ∧
  _cached_wrapper (Some c) (Some (LockObject w false)) cond (Some i)
    = LockedInfo ∧
  _cached_wrapper (Some c) (Some l) cond (@None Info) = Locked ∧
  has_cache_info (_cached_wrapper (Some c) lock cond (Some i)) = true ∧
  has_cache_info (_cached_wrapper (Some c) lock cond (@None Info)) = false ∧
  has_cache_info (_cached_wrapper (@None Cache) lock cond (Some i)) = true ∧
  has_cache_info (_cached_wrapper (@None Cache) lock cond (@None Info)) = false.
Proof.
  repeat split; try done.
  - by destruct w.
  - by destruct lock as [[[] []]|].
  - by destruct lock.
Qed.

(** Unfolding the wrappers and the step of a thread. *)
Ltac unfold_wrappers :=
  unfold call, _uncached_info_wrapper, _uncached_wrapper,
    _cached_unlocked_info_wrapper, _cached_unlocked_wrapper,
    _cached_locked_info_wrapper, _cached_locked_wrapper,
    _cached_cond_info_wrapper, _cached_cond_info_lookup,
    _cached_locked_info_lookup, _cached_locked_lookup,
    _cached_locked_store, _cached_cond_info_store,
    _cached_cond_info_finally, _cached_cond_info_cleanup.

Ltac unfold_step := unfold cond_step, acquire, release.

Section Properties.
Context {K : Type} `{Countable K}.
Context {V A E C W Info : Type}.
Context `{!CacheContract K V C} `{!CacheLaws K V C}.
Variable func : A → W → outcome V E * W.
Variable key : A → K.
Variable info : nat → nat → Info.
Variable KeyError : K → E.

Context {I L Lk : Type} `{EqDecision L}.
Variable method : I → A → W → outcome V E * W.
Variable cache_of : I → option L.
Variable mkey : I → A → K.
Variable lock_of : I → Lk.

Abbreviation call := (call func key KeyError).
Abbreviation calls := (calls func key KeyError).
Abbreviation cond_step := (cond_step func key KeyError).
Abbreviation direct := (direct func).
Abbreviation method_unlocked :=
  (_cachedmethod_unlocked_wrapper method cache_of mkey).
Abbreviation method_locked :=
  (_cachedmethod_locked_wrapper method cache_of mkey lock_of).
Abbreviation method_unlocked_clear :=
  (_cachedmethod_unlocked_cache_clear (K:=K) (V:=V) (W:=W) cache_of).
Abbreviation method_locked_clear :=
  (_cachedmethod_locked_cache_clear (K:=K) (V:=V) (W:=W) cache_of lock_of).

(** ** One caller at a time *)

Lemma getitem_inv (k : K) (c c' : C) (r : option V) :
  getitem k c = (r, c') → r = contents c !! k ∧ contents c' = contents c.
Proof.
  intros Hg. split.
  - rewrite <- getitem_contents. by rewrite Hg.
  - rewrite <- (getitem_keeps k c). by rewrite Hg.
Qed.


Lemma setdefault_rejected (k : K) (v : V) (c : C) :
  contents c !! k = None →
  (∀ c', contents c' = contents c → setitem k v c' = None) →
  ∃ c', setdefault k v c = (None, c') ∧ contents c' = contents c.
Proof.
  intros Hk Hrej. unfold setdefault.
  destruct (getitem k c) as [r c1] eqn:Hg.
  apply getitem_inv in Hg as [-> Hc]. rewrite Hk, Hrej by done. by eexists.
Qed.

Lemma setdefault_accepted `{!Retaining K V C} (k : K) (v : V) (c : C) :
  contents c !! k = None →
  ∃ c', setdefault k v c = (Some v, c') ∧ contents c' = <[k:=v]> (contents c).
Proof.
  intros Hk. unfold setdefault.
  destruct (getitem k c) as [r c1] eqn:Hg.
  apply getitem_inv in Hg as [-> Hc]. rewrite Hk.
  destruct (setitem_accepts k v c1) as [c2 Hs]. rewrite Hs.
  eexists; split; [done|]. rewrite <- Hc. by apply setitem_retains.
Qed.

(** C6. Clearing twice leaves what clearing once leaves: the same
    counters, pending set and function state, and a cache with the same
    contents.  With counters, one [cache_clear] leaves the cache empty
    and both counters at zero, so that [cache_info] then gives
    [info(0, 0)]; where there is a lock, a thread does it all in the
    one step it makes while holding the lock, which it then releases. *)
Theorem C6_cache_clear_idempotent_and_resets
    (s : strategy) (st : state K C W) (cf : config K V A E C W) (t : nat)
    (Hc : threads cf !! t = Some (Clearing (V:=V) (A:=A) (E:=E))) :
  let st1 := cache_clear s st in
  let st2 := cache_clear s st1 in
  (contents (cache st2) = contents (cache st1) ∧ hits st2 = hits st1 ∧
   misses st2 = misses st1 ∧ pending st2 = pending st1 ∧
   world st2 = world st1) ∧
  cache_info info s st1
    = (if has_cache_info s then Some (info 0 0) else None) ∧
  match s with
  | UncachedInfo | Uncached => cache st1 = cache st
  | _ => contents (cache st1) = ∅
  end ∧
  (∃ cf', cond_step t cf = Some cf' ∧ lock cf' = None ∧
     shared cf' = _cached_cond_info_cache_clear (shared cf) ∧
     contents (cache (shared cf')) = ∅ ∧
     hits (shared cf') = 0 ∧ misses (shared cf') = 0) ∧
  (∃ cf', _cached_locked_info_step func key t cf = Some cf' ∧
     lock cf' = None ∧
     shared cf' = _cached_locked_info_cache_clear (shared cf) ∧
     contents (cache (shared cf')) = ∅ ∧
     hits (shared cf') = 0 ∧ misses (shared cf') = 0).
Proof.
  simpl. split_and!.
  - destruct s; simpl; by rewrite ?clear_contents.
  - by destruct s.
  - by destruct s.
  - by destruct s.
  - by destruct s.
  - by destruct s.
  - destruct s; simpl; by rewrite ?clear_contents.
  - eexists. unfold_step. rewrite Hc. split; [done|].
    simpl. by rewrite clear_contents.
  - eexists. unfold _cached_locked_info_step, locked_step. rewrite Hc.
    split; [done|]. simpl. by rewrite clear_contents.
Qed.
Ltac read_cache :=
  match goal with
  | |- context [getitem ?k ?c] =>
      let Hg := fresh "Hg" in
      let Hc := fresh "Hc" in
      destruct (getitem k c) as [? ?] eqn:Hg;
      apply getitem_inv in Hg as [-> Hc]
  end.

Lemma call_hit (s : strategy) (a : A) (st : state K C W) (r : V) :
  caching s = true →
  contents (cache st) !! key a = Some r →
  key a ∉ pending st →
  ∃ st', call s a st = Some (Return r, st') ∧
    contents (cache st') = contents (cache st) ∧
    pending st' = pending st ∧ world st' = world st ∧
    hits st' = count s (hits st) ∧ misses st' = misses st.
Proof.
  intros Hs Hk Hp.
  destruct s; try discriminate Hs; unfold_wrappers;
    rewrite ?decide_False by done; read_cache; rewrite Hk;
    eexists; split_and!; done.
Qed.

Lemma call_miss_raise (s : strategy) (a : A) (st : state K C W) (e : E) (w : W) :
  (getitem (key a) (cache st)).1 = None →
  func a (world st) = (Raise e, w) →
  key a ∉ pending st →
  ∃ st', call s a st = Some (Raise e, st') ∧
    cache st' = (if caching s then (getitem (key a) (cache st)).2
                 else cache st) ∧
    contents (cache st') = contents (cache st) ∧
    pending st' = pending st ∧ world st' = w ∧
    hits st' = hits st ∧ misses st' = count s (misses st).
Proof.
  intros Hk Hf Hp. rewrite getitem_contents in Hk.
  destruct s; unfold_wrappers; simpl;
    rewrite ?decide_False by done; try read_cache; rewrite ?Hk; simpl;
    rewrite Hf; simpl; rewrite ?decide_True by set_solver;
    eexists; (split; [done|]); split_and!; try done; simpl; set_solver.
Qed.

Lemma call_miss_rejected (s : strategy) (a : A) (st : state K C W) (v : V) (w : W) :
  (getitem (key a) (cache st)).1 = None →
  func a (world st) = (Return v, w) →
  (∀ c, contents c = contents (cache st) → setitem (key a) v c = None) →
  key a ∉ pending st →
  ∃ st', call s a st = Some (Return v, st') ∧
    contents (cache st') = contents (cache st) ∧
    pending st' = pending st ∧ world st' = w ∧
    hits st' = hits st ∧ misses st' = count s (misses st).
Proof.
  intros Hk Hf Hrej Hp. rewrite getitem_contents in Hk.
  destruct s; unfold_wrappers; simpl;
    rewrite ?decide_False by done; try read_cache; rewrite ?Hk; simpl;
    rewrite Hf; simpl.
  - eexists; split_and!; done.
  - rewrite Hrej by done. eexists; split_and!; done.
  - rewrite Hrej by done. simpl. rewrite decide_True by set_solver.
    eexists; (split; [done|]); split_and!; try done; simpl; set_solver.
  - destruct (setdefault_rejected (key a) v c) as (c' & -> & Hc');
      [congruence|intros; apply Hrej; congruence|].
    eexists; (split; [done|]); split_and!; try done; simpl; congruence.
  - eexists; split_and!; done.
  - rewrite Hrej by done. eexists; split_and!; done.
  - destruct (setdefault_rejected (key a) v c) as (c' & -> & Hc');
      [congruence|intros; apply Hrej; congruence|].
    eexists; (split; [done|]); split_and!; try done; simpl; congruence.
Qed.

Lemma call_miss_stored `{!Retaining K V C}
    (s : strategy) (a : A) (st : state K C W) (v : V) (w : W) :
  caching s = true →
  contents (cache st) !! key a = None →
  func a (world st) = (Return v, w) →
  key a ∉ pending st →
  ∃ st', call s a st = Some (Return v, st') ∧
    contents (cache st') = <[key a:=v]> (contents (cache st)) ∧
    pending st' = pending st ∧ world st' = w ∧
    hits st' = hits st ∧ misses st' = count s (misses st).
Proof.
  intros Hs Hk Hf Hp.
  destruct s; try discriminate Hs; unfold_wrappers; simpl;
    rewrite ?decide_False by done; read_cache; rewrite Hk; simpl;
    rewrite Hf; simpl.
  - destruct (setitem_accepts (key a) v c) as [c2 Hc2]. rewrite Hc2.
    eexists; (split; [done|]); split_and!; try done; simpl.
    rewrite <- Hc. by apply setitem_retains.
  - destruct (setitem_accepts (key a) v c) as [c2 Hc2]. rewrite Hc2. simpl.
    rewrite decide_True by set_solver.
    eexists; (split; [done|]); split_and!; try done; simpl.
    + rewrite <- Hc. by apply setitem_retains.
    + set_solver.
  - destruct (setdefault_accepted (key a) v c) as (c' & -> & Hc');
      [congruence|].
    eexists; (split; [done|]); split_and!; try done; simpl; congruence.
  - destruct (setitem_accepts (key a) v c) as [c2 Hc2]. rewrite Hc2.
    eexists; (split; [done|]); split_and!; try done; simpl.
    rewrite <- Hc. by apply setitem_retains.
  - destruct (setdefault_accepted (key a) v c) as (c' & -> & Hc');
      [congruence|].
    eexists; (split; [done|]); split_and!; try done; simpl; congruence.
Qed.

(** C9. With counters, a call whose lookup misses and whose function then
    raises has counted its miss: the caller gets the exception, [misses]
    is one more, [hits] is as before, and nothing was stored: the cache is
    the one the lookup left, with the contents it had. *)
Theorem C9_miss_counted_before_failure
    (s : strategy) (a : A) (st : state K C W) (e : E) (w : W)
    (Hs : has_cache_info s = true)
    (Hmiss : (getitem (key a) (cache st)).1 = None)
    (Hraise : func a (world st) = (Raise e, w))
    (Hp : key a ∉ pending st) :
  ∃ st', call s a st = Some (Raise e, st') ∧
    misses st' = S (misses st) ∧ hits st' = hits st ∧
    cache st' = match s with
                | UncachedInfo => cache st
                | _ => (getitem (key a) (cache st)).2
                end ∧
    contents (cache st') = contents (cache st) ∧
    pending st' = pending st ∧ world st' = w.
Proof.
  destruct (call_miss_raise s a st e w) as (st' & ? & Hc & ? & ? & ? & ? & ?);
    [done..|].
  exists st'. unfold count in *. rewrite Hs in *. split_and!; try done.
  rewrite Hc. by destruct s.
Qed.

Lemma calls_rejecting `{!Rejecting K V C}
    (s : strategy) (l : list A) (st : state K C W) :
  contents (cache st) = ∅ → pending st = ∅ →
  ∃ st', calls s l st = Some ((direct l (world st)).1, st') ∧
    world st' = (direct l (world st)).2 ∧
    contents (cache st') = ∅ ∧ pending st' = ∅ ∧
    hits st' = hits st ∧
    misses st' = (if has_cache_info s then misses st + length l else misses st).
Proof.
  revert st. induction l as [|a l IH]; intros st Hc Hp; simpl.
  - eexists; split_and!; try done. destruct (has_cache_info s); lia.
  - assert (Hk : (getitem (key a) (cache st)).1 = None).
    { by rewrite getitem_contents, Hc. }
    assert (Ha : key a ∉ pending st) by set_solver.
    destruct (func a (world st)) as [[v|e] w] eqn:Hf.
    + destruct (call_miss_rejected s a st v w)
        as (st1 & -> & Hc1 & Hp1 & Hw1 & Hh1 & Hm1);
        [done|done|intros; apply setitem_rejects|done|].
      destruct (IH st1) as (st2 & -> & Hw2 & Hc2 & Hp2 & Hh2 & Hm2);
        [congruence|congruence|].
      rewrite Hw1 in *. destruct (direct l w) as [os w2].
      eexists; split_and!; try done; try congruence.
      rewrite Hm2, Hm1. unfold count. destruct (has_cache_info s); simpl; lia.
    + destruct (call_miss_raise s a st e w)
        as (st1 & -> & _ & Hc1 & Hp1 & Hw1 & Hh1 & Hm1); [done..|].
      destruct (IH st1) as (st2 & -> & Hw2 & Hc2 & Hp2 & Hh2 & Hm2);
        [congruence|congruence|].
      rewrite Hw1 in *. destruct (direct l w) as [os w2].
      eexists; split_and!; try done; try congruence.
      rewrite Hm2, Hm1. unfold count. destruct (has_cache_info s); simpl; lia.
Qed.

Ltac unfold_methods :=
  unfold _cachedmethod_unlocked_wrapper, _cachedmethod_locked_wrapper,
    _cachedmethod_unlocked_cache_clear, _cachedmethod_locked_cache_clear.

Lemma method_miss_rejected
    (self : I) (a : A) (ms : mstate C W L Lk) (c : L) (v : V) (w : W) :
  cache_of self = Some c →
  (getitem (mkey self a) (caches ms c)).1 = None →
  method self a (mworld ms) = (Return v, w) →
  (∀ c', contents c' = contents (caches ms c) →
     setitem (mkey self a) v c' = None) →
  busy ms (lock_of self) = false →
  (∃ ms', method_unlocked self a ms = (Return v, ms') ∧
     contents (caches ms' c) = contents (caches ms c) ∧ mworld ms' = w) ∧
  (∃ ms', method_locked self a ms = Some (Return v, ms') ∧
     contents (caches ms' c) = contents (caches ms c) ∧ mworld ms' = w).
Proof.
  intros Hc Hk Hf Hrej Hb. rewrite getitem_contents in Hk.
  unfold_methods. rewrite Hc, Hb. read_cache. rewrite Hk. simpl.
  rewrite Hf. simpl. rewrite fn_lookup_insert, Hrej, Hb by done. split.
  - eexists; split_and!; try done. simpl. by rewrite fn_lookup_insert.
  - destruct (setdefault_rejected (mkey self a) v c0) as (c' & -> & Hc');
      [congruence|intros; apply Hrej; congruence|].
    eexists; split_and!; try done. simpl. rewrite fn_lookup_insert.
    congruence.
Qed.

(** C4. A rejected insertion never shows: in every strategy, and in both
    method wrappers, a call whose lookup misses, whose function returns
    [v] and whose insertion of [v] the cache rejects, returns [v], the
    cache keeping the contents it had.  With a cache that rejects every
    insertion and holds nothing, a run of calls produces what the function
    produces when called directly; with counters every call is counted as
    a miss and [hits] never moves. *)
Theorem C4_capacity_rejection_is_silent :
  (∀ (s : strategy) (a : A) (st : state K C W) (v : V) (w : W),
     (getitem (key a) (cache st)).1 = None →
     func a (world st) = (Return v, w) →
     (∀ c, contents c = contents (cache st) → setitem (key a) v c = None) →
     key a ∉ pending st →
     ∃ st', call s a st = Some (Return v, st') ∧
       contents (cache st') = contents (cache st) ∧
       hits st' = hits st ∧ misses st' = count s (misses st)) ∧
  (∀ (self : I) (a : A) (ms : mstate C W L Lk) (c : L) (v : V) (w : W),
     cache_of self = Some c →
     (getitem (mkey self a) (caches ms c)).1 = None →
     method self a (mworld ms) = (Return v, w) →
     (∀ c', contents c' = contents (caches ms c) →
        setitem (mkey self a) v c' = None) →
     busy ms (lock_of self) = false →
     (∃ ms', method_unlocked self a ms = (Return v, ms') ∧
        contents (caches ms' c) = contents (caches ms c)) ∧
     (∃ ms', method_locked self a ms = Some (Return v, ms') ∧
        contents (caches ms' c) = contents (caches ms c))) ∧
  (∀ (rejecting : Rejecting K V C) (s : strategy) (l : list A)
     (st : state K C W),
     contents (cache st) = ∅ → pending st = ∅ →
     ∃ st', calls s l st = Some ((direct l (world st)).1, st') ∧
       contents (cache st') = ∅ ∧ hits st' = hits st ∧
       misses st'
       = (if has_cache_info s then misses st + length l else misses st)).
Proof.
  split_and!.
  - intros s a st v w Hk Hf Hrej Hp.
    destruct (call_miss_rejected s a st v w) as (st' & ? & ? & ? & ? & ? & ?);
      [done..|].
    by exists st'.
  - intros self a ms c v w Hc Hk Hf Hrej Hb.
    destruct (method_miss_rejected self a ms c v w)
      as [(m1 & ? & ? & ?) (m2 & ? & ? & ?)]; [done..|].
    split; eexists; split; done.
  - intros rejecting s l st Hc Hp.
    destruct (calls_rejecting s l st) as (st' & ? & ? & ? & ? & ? & ?);
      [done..|].
    by exists st'.
Qed.

Lemma size_new_key (k : K) (X D : gset K) :
  k ∉ D → size (({[k]} ∪ X) ∖ D) = S (size (X ∖ ({[k]} ∪ D))).
Proof.
  intros Hk.
  assert (({[k]} ∪ X) ∖ D = {[k]} ∪ X ∖ ({[k]} ∪ D)) as ->.
  { apply set_eq. intros x. destruct (decide (x = k)); set_solver. }
  rewrite size_union by set_solver. by rewrite size_singleton.
Qed.

Lemma size_old_key (k : K) (X D : gset K) :
  k ∈ D → ({[k]} ∪ X) ∖ D = X ∖ D.
Proof. set_solver. Qed.

Lemma calls_retaining `{!Retaining K V C}
    (s : strategy) (l : list A) (st : state K C W) :
  caching s = true → has_cache_info s = true →
  (∀ a w, ∃ v w', func a w = (Return v, w')) →
  pending st = ∅ →
  ∃ os st', calls s l st = Some (os, st') ∧ pending st' = ∅ ∧
    dom (contents (cache st'))
    = dom (contents (cache st)) ∪ list_to_set (key <$> l) ∧
    misses st'
    = misses st + size (list_to_set (key <$> l) ∖ dom (contents (cache st))) ∧
    hits st' + misses st' = hits st + misses st + length l.
Proof.
  intros Hs Hi Hf. revert st.
  induction l as [|a l IH]; intros st Hp; simpl.
  - eexists _, _; split_and!; try done; try lia.
    + set_solver.
    + replace (∅ ∖ dom (contents (cache st))) with (∅ : gset K) by set_solver.
      rewrite size_empty. lia.
  - change (list_fmap A K key l) with (key <$> l).
    assert (Ha : key a ∉ pending st) by set_solver.
    destruct (contents (cache st) !! key a) as [r|] eqn:Hk.
    + destruct (call_hit s a st r)
        as (st1 & -> & Hc1 & Hp1 & Hw1 & Hh1 & Hm1); [done..|].
      destruct (IH st1) as (os & st2 & -> & Hp2 & Hd2 & Hm2 & Hs2);
        [congruence|].
      eexists _, _; split_and!; try done.
      * rewrite Hd2, Hc1. apply elem_of_dom_2 in Hk. set_solver.
      * rewrite Hm2, Hm1, Hc1, size_old_key; [done|].
        by apply elem_of_dom_2 in Hk.
      * rewrite Hs2, Hh1, Hm1. unfold count. rewrite Hi. lia.
    + destruct (Hf a (world st)) as (v & w & Hv).
      destruct (call_miss_stored s a st v w)
        as (st1 & -> & Hc1 & Hp1 & Hw1 & Hh1 & Hm1); [done..|].
      destruct (IH st1) as (os & st2 & -> & Hp2 & Hd2 & Hm2 & Hs2);
        [congruence|].
      eexists _, _; split_and!; try done.
      * rewrite Hd2, Hc1, dom_insert_L. set_solver.
      * rewrite Hm2, Hm1, Hc1, dom_insert_L, size_new_key.
        -- unfold count. rewrite Hi. lia.
        -- by apply not_elem_of_dom.
      * rewrite Hs2, Hh1, Hm1. unfold count. rewrite Hi. lia.
Qed.

(** C5. On a freshly built wrapper over an empty cache that accepts and
    retains every insertion, with a function that returns on every call
    and no [cache_clear] in between, a run of N calls, one after the
    other, whose keys take K distinct values, leaves [misses = K] and
    [hits = N - K]. *)
Theorem C5_hit_miss_accounting
    (retaining : Retaining K V C)
    (s : strategy) (l : list A) (c : C) (w : W)
    (Hcaching : caching s = true)
    (Hinfo : has_cache_info s = true)
    (Hreturns : ∀ a w, ∃ v w', func a w = (Return v, w'))
    (Hempty : contents c = ∅) :
  ∃ os st', calls s l (fresh c w) = Some (os, st') ∧
    cache_info info s st'
    = Some (info (length l - size (list_to_set (key <$> l) : gset K))
                 (size (list_to_set (key <$> l) : gset K))) ∧
    misses st' = size (list_to_set (key <$> l) : gset K) ∧
    hits st' = length l - size (list_to_set (key <$> l) : gset K) ∧
    size (list_to_set (key <$> l) : gset K) ≤ length l.
Proof.
  destruct (calls_retaining s l (fresh c w))
    as (os & st' & Hr & Hp & Hd & Hm & Hs); [done..|].
  simpl in Hm, Hs. rewrite Hempty, dom_empty_L, difference_empty_L in Hm.
  assert (hits st' = length l - size (list_to_set (key <$> l) : gset K)
          ∧ size (list_to_set (key <$> l) : gset K) ≤ length l) as [Hh Hle]
    by lia.
  exists os, st'. split_and!; try done.
  destruct s; try discriminate Hinfo; try discriminate Hcaching; simpl;
    unfold _cached_unlocked_info_cache_info, _cached_cond_info_cache_info,
      _cached_locked_info_cache_info; by rewrite Hm, Hh.
Qed.

(** ** The method wrappers *)

(** C8. When [cache(self)] is [None] the method wrappers call the method
    and nothing else: the outcome and the new state are the method's, as
    with the uncached wrapper, no cache object changes, the lock is not
    waited for, and neither the key function nor the lock accessor plays
    a part.  When [cache(self)] is a cache object, the call does what the
    unlocked (or locked) function wrapper does on that object, and leaves
    every other cache object as it was. *)
Theorem C8_method_bound_bypass
    (selfA selfB : I) (a : A) (ms : mstate C W L Lk) (c : L)
    (HA : cache_of selfA = None)
    (HB : cache_of selfB = Some c)
    (Hfree : busy ms (lock_of selfB) = false) :
  let direct_call := method selfA a (mworld ms) in
  let unlocked := _cached_unlocked_wrapper (method selfB) (mkey selfB) a
                    (view c ms) in
  let locked := _cached_locked_wrapper (method selfB) (mkey selfB) a
                  (view c ms) in
  (method_unlocked selfA a ms = (direct_call.1, set_mworld direct_call.2 ms) ∧
   method_locked selfA a ms = Some (direct_call.1, set_mworld direct_call.2 ms) ∧
   _uncached_wrapper (method selfA) a (view (K:=K) c ms)
   = (direct_call.1, set_world direct_call.2 (view c ms)) ∧
   (∀ (key' : I → A → K) (lock' : I → Lk),
      _cachedmethod_unlocked_wrapper method cache_of key' selfA a ms
      = method_unlocked selfA a ms ∧
      _cachedmethod_locked_wrapper method cache_of key' lock' selfA a ms
      = method_locked selfA a ms)) ∧
  (∃ ms', method_unlocked selfB a ms = (unlocked.1, ms') ∧
     caches ms' c = cache unlocked.2 ∧ mworld ms' = world unlocked.2 ∧
     busy ms' = busy ms ∧ ∀ c', c' ≠ c → caches ms' c' = caches ms c') ∧
  (∃ ms', method_locked selfB a ms = Some (locked.1, ms') ∧
     caches ms' c = cache locked.2 ∧ mworld ms' = world locked.2 ∧
     busy ms' = busy ms ∧ ∀ c', c' ≠ c → caches ms' c' = caches ms c').
Proof.
  simpl. split_and!.
  - unfold_methods. rewrite HA. by destruct (method selfA a (mworld ms)).
  - unfold_methods. rewrite HA. by destruct (method selfA a (mworld ms)).
  - unfold _uncached_wrapper. simpl.
    by destruct (method selfA a (mworld ms)).
  - intros key' lock'. unfold_methods. by rewrite HA.
  - unfold_methods. unfold _cached_unlocked_wrapper. rewrite HB. simpl.
    destruct (getitem (mkey selfB a) (caches ms c)) as [[r|] c1]; simpl.
    { eexists; split_and!; try done; simpl.
      - by rewrite fn_lookup_insert.
      - intros c' Hc'. by rewrite fn_lookup_insert_ne. }
    destruct (method selfB a (mworld ms)) as [[v|e] w]; simpl.
    + rewrite fn_lookup_insert.
      destruct (setitem (mkey selfB a) v c1) as [c2|]; simpl;
        eexists; split_and!; try done; simpl;
        rewrite ?fn_lookup_insert; try done;
        intros c' Hc'; by rewrite !fn_lookup_insert_ne.
    + eexists; split_and!; try done; simpl.
      * by rewrite fn_lookup_insert.
      * intros c' Hc'. by rewrite fn_lookup_insert_ne.
  - unfold_methods.
    unfold _cached_locked_wrapper, _cached_locked_lookup, _cached_locked_store.
    rewrite HB, Hfree. simpl.
    destruct (getitem (mkey selfB a) (caches ms c)) as [[r|] c1]; simpl.
    { eexists; split_and!; try done; simpl.
      - by rewrite fn_lookup_insert.
      - intros c' Hc'. by rewrite fn_lookup_insert_ne. }
    destruct (method selfB a (mworld ms)) as [[v|e] w]; simpl.
    + rewrite fn_lookup_insert, Hfree.
      destruct (setdefault (mkey selfB a) v c1) as [[r|] c2]; simpl;
        eexists; split_and!; try done; simpl;
        rewrite ?fn_lookup_insert; try done;
        intros c' Hc'; by rewrite !fn_lookup_insert_ne.
    + eexists; split_and!; try done; simpl.
      * by rewrite fn_lookup_insert.
      * intros c' Hc'. by rewrite fn_lookup_insert_ne.
Qed.

(** C10. For the method wrappers, [cache_clear(self)] does nothing when
    [cache(self)] is [None]: it returns with everything as it was, also
    while another thread holds the lock of the instance, which it
    therefore does not wait for.  Otherwise it clears the cache object of
    that instance and no other; the locked variant does so once the lock
    is free, and waits while it is not. *)
Theorem C10_method_cache_clear (self : I) (ms : mstate C W L Lk) :
  (cache_of self = None →
     method_unlocked_clear self ms = ms ∧
     method_locked_clear self ms = Some ms ∧
     ∀ lock' : I → Lk,
       _cachedmethod_locked_cache_clear (K:=K) (V:=V) cache_of lock' self ms
       = Some ms) ∧
  (∀ c, cache_of self = Some c →
     let ms1 := method_unlocked_clear self ms in
     (caches ms1 c = clear (caches ms c) ∧ contents (caches ms1 c) = ∅ ∧
      mworld ms1 = mworld ms ∧ busy ms1 = busy ms ∧
      ∀ c', c' ≠ c → caches ms1 c' = caches ms c') ∧
     (busy ms (lock_of self) = false →
        method_locked_clear self ms = Some ms1) ∧
     (busy ms (lock_of self) = true →
        method_locked_clear self ms = None)).
Proof.
  split.
  - intros Hc. unfold_methods. by rewrite Hc.
  - intros c Hc. unfold_methods. rewrite Hc. simpl. split_and!; try done.
    + by rewrite fn_lookup_insert.
    + by rewrite fn_lookup_insert, clear_contents.
    + intros c' Hc'. by rewrite fn_lookup_insert_ne.
    + by intros ->.
    + by intros ->.
Qed.
End Properties.

(** ** What memoizing gives the caller *)

Ltac read_cache :=
  match goal with
  | |- context [getitem ?k ?c] =>
      let Hg := fresh "Hg" in
      let Hc := fresh "Hc" in
      destruct (getitem k c) as [? ?] eqn:Hg;
      apply getitem_inv in Hg as [-> Hc]
  end.

Section Memoizing.
Context {K : Type} `{Countable K}.
Context {V A E C W Info : Type}.
Context `{!CacheContract K V C} `{!CacheLaws K V C}.
Variable func : A → W → outcome V E * W.
Variable key : A → K.
Variable info : nat → nat → Info.
Variable KeyError : K → E.

Lemma setdefault_absent (k : K) (v : V) (c : C) :
  contents c !! k = None →
  ∃ r c', setdefault k v c = (r, c') ∧ (r = Some v ∨ r = None) ∧
    ((∃ c1, contents c1 = contents c ∧ setitem k v c1 = Some c') ∨
     contents c' = contents c).
Proof.
  intros Hk. unfold setdefault.
  destruct (getitem k c) as [r c1] eqn:Hg.
  apply getitem_inv in Hg as [-> Hc]. rewrite Hk.
  destruct (setitem k v c1) as [c2|] eqn:Hs; eexists _, _;
    (split; [done|]); split; eauto.
Qed.

(** A miss hands the caller what the function produces, whether the
    cache then takes the value or not. *)
Lemma call_miss (s : strategy) (a : A) (st : state K C W) :
  contents (cache st) !! key a = None →
  key a ∉ pending st →
  ∃ st', call func key KeyError s a st
         = Some ((func a (world st)).1, st') ∧
    world st' = (func a (world st)).2 ∧
    pending st' = pending st ∧
    hits st' = hits st ∧ misses st' = count s (misses st) ∧
    ((∃ v c1, (func a (world st)).1 = Return v ∧
        contents c1 = contents (cache st) ∧
        setitem (key a) v c1 = Some (cache st')) ∨
     contents (cache st') = contents (cache st)).
Proof.
  intros Hk Hp.
  destruct (func a (world st)) as [[v|e] w] eqn:Hf.
  2:{ destruct (call_miss_raise func key KeyError s a st e w)
        as (st' & ? & ? & ? & ? & ? & ? & ?);
        [by rewrite getitem_contents|done..|].
      exists st'. split_and!; try done. by right. }
  destruct s; unfold_wrappers; simpl;
    rewrite ?decide_False by done; try read_cache; rewrite ?Hk; simpl;
    rewrite ?Hf; simpl.
  all: try (destruct (setitem (key a) v c) eqn:Hs; simpl).
  all: rewrite ?decide_True by set_solver.
  all: try (destruct (setdefault_absent (key a) v c)
              as (r & c' & -> & [-> | ->] & [(c1 & ? & ?)|?]);
            [congruence|..]).
  all: eexists; split_and!; try done; simpl; try set_solver.
  all: try (by right).
  all: try (right; congruence).
  all: left; eexists _, _; split_and!; [done| |done]; congruence.
Qed.

(** On a hit the function is not called: the stored value comes back,
    the state of the function is as it was, and the call does the same
    whatever function is wrapped. *)
Theorem hit_does_not_call_the_function
    (s : strategy) (a : A) (st : state K C W) (r : V)
    (func' : A → W → outcome V E * W)
    (Hs : caching s = true)
    (Hr : contents (cache st) !! key a = Some r)
    (Hp : key a ∉ pending st) :
  ∃ st', call func key KeyError s a st = Some (Return r, st') ∧
    call func' key KeyError s a st = Some (Return r, st') ∧
    world st' = world st ∧
    contents (cache st') = contents (cache st) ∧
    hits st' = count s (hits st) ∧ misses st' = misses st.
Proof.
  destruct (call_hit func key KeyError s a st r)
    as (st' & Hc & ? & ? & ? & ? & ?); [done..|].
  exists st'. split_and!; try done.
  rewrite <- Hc. clear Hc.
  destruct s; try discriminate Hs; unfold_wrappers;
    rewrite ?decide_False by done; read_cache; by rewrite Hr.
Qed.

(** A miss hands the caller what the function produces, value or
    exception, having called it once; the lookup's [KeyError] and the
    insertion's [ValueError] never reach the caller. *)
Theorem miss_gives_the_functions_outcome
    (s : strategy) (a : A) (st : state K C W)
    (Hk : contents (cache st) !! key a = None)
    (Hp : key a ∉ pending st) :
  ∃ st', call func key KeyError s a st
         = Some ((func a (world st)).1, st') ∧
    world st' = (func a (world st)).2 ∧
    pending st' = pending st ∧
    hits st' = hits st ∧ misses st' = count s (misses st).
Proof.
  destruct (call_miss s a st) as (st' & ? & ? & ? & ? & ? & _); [done..|].
  by exists st'.
Qed.

Lemma call_coherent `{!Evicting K V C}
    (f : A → V) (s : strategy) (a : A) (st : state K C W) :
  (∀ a w, (func a w).1 = Return (f a)) →
  (∀ a b, key a = key b → f a = f b) →
  coherent f key (contents (cache st)) →
  key a ∉ pending st →
  ∃ st', call func key KeyError s a st = Some (Return (f a), st') ∧
    coherent f key (contents (cache st')) ∧ pending st' = pending st.
Proof.
  intros Hf Hkey Hco Hp.
  destruct (caching s) eqn:Hs.
  2:{ destruct s; try discriminate Hs; unfold_wrappers; simpl;
        specialize (Hf a (world st));
        destruct (func a (world st)) as [o w]; simpl in Hf; subst o;
        by eexists. }
  destruct (contents (cache st) !! key a) as [r|] eqn:Hk.
  - destruct (call_hit func key KeyError s a st r)
      as (st' & Hc & Hco' & ? & _); [done..|].
    exists st'. rewrite Hco', <- (Hco a r Hk). done.
  - destruct (call_miss s a st) as (st' & Hc & _ & ? & _ & _ & Hst);
      [done..|].
    exists st'. rewrite Hf in Hc. split_and!; try done.
    destruct Hst as [(v & c1 & Hv & Hc1 & Hset)|Hsame].
    + rewrite Hf in Hv. injection Hv as <-.
      apply setitem_evicts in Hset. rewrite Hc1 in Hset.
      intros b v Hb. eapply lookup_weaken in Hb; [|done].
      destruct (decide (key a = key b)) as [Heq|Hne].
      * rewrite Heq, lookup_insert_eq in Hb. injection Hb as <-. by apply Hkey.
      * rewrite lookup_insert_ne in Hb by done. by apply Hco.
    + by rewrite Hsame.
Qed.

(** Memoizing is transparent.  When the value the function returns
    depends on its argument only, and two arguments with the same key get
    the same value, a cache that holds nothing but such values, and only
    ever drops entries, makes every strategy return, call after call,
    what the function would. *)
Theorem memoized_calls_return_the_functions_values `{!Evicting K V C}
    (f : A → V) (s : strategy) (l : list A) (st : state K C W)
    (Hf : ∀ a w, (func a w).1 = Return (f a))
    (Hkey : ∀ a b, key a = key b → f a = f b)
    (Hco : coherent f key (contents (cache st)))
    (Hp : pending st = ∅) :
  ∃ st', calls func key KeyError s l st = Some ((λ a, Return (f a)) <$> l, st') ∧
    coherent f key (contents (cache st')) ∧ pending st' = ∅.
Proof.
  revert st Hco Hp. induction l as [|a l IH]; intros st Hco Hp; simpl.
  - by eexists.
  - destruct (call_coherent f s a st) as (st1 & -> & Hco1 & Hp1);
      [done|done|done|set_solver|].
    destruct (IH st1) as (st2 & -> & Hco2 & Hp2); [done|congruence|].
    by eexists.
Qed.

Lemma setdefault_absent_accepted (k : K) (v : V) (c : C) :
  contents c !! k = None →
  (∀ c', contents c' = contents c → is_Some (setitem k v c')) →
  ∃ c', setdefault k v c = (Some v, c') ∧ contents c' !! k = Some v.
Proof.
  intros Hk Hacc. unfold setdefault.
  destruct (getitem k c) as [r c1] eqn:Hg.
  apply getitem_inv in Hg as [-> Hc]. rewrite Hk.
  destruct (Hacc c1 Hc) as [c2 Hc2]. rewrite Hc2.
  eexists; split; [done|]. by eapply setitem_binds.
Qed.

Lemma call_miss_accepted
    (s : strategy) (a : A) (st : state K C W) (v : V) (w : W) :
  caching s = true →
  contents (cache st) !! key a = None →
  func a (world st) = (Return v, w) →
  (∀ c, contents c = contents (cache st) → is_Some (setitem (key a) v c)) →
  key a ∉ pending st →
  ∃ st', call func key KeyError s a st = Some (Return v, st') ∧
    contents (cache st') !! key a = Some v ∧
    pending st' = pending st ∧ world st' = w ∧
    hits st' = hits st ∧ misses st' = count s (misses st).
Proof.
  intros Hs Hk Hf Hacc Hp.
  destruct s; try discriminate Hs; unfold_wrappers; simpl;
    rewrite ?decide_False by done; read_cache; rewrite Hk; simpl;
    rewrite Hf; simpl.
  all: try (destruct (Hacc c Hc) as [c2 Hc2]; rewrite Hc2; simpl;
            rewrite ?decide_True by set_solver;
            eexists; (split; [done|]); split_and!; try done; simpl;
            [by eapply setitem_binds|set_solver..]).
  all: destruct (setdefault_absent_accepted (key a) v c) as (c' & -> & Hc');
    [congruence|intros; apply Hacc; congruence|];
    eexists; (split; [done|]); split_and!; done.
Qed.

(** What a call stored, the next call with that key finds: it returns
    the same value without calling the function again. *)
Theorem stored_value_is_found_again
    (s : strategy) (a b : A) (st : state K C W) (v : V) (w : W)
    (Hs : caching s = true)
    (Hk : contents (cache st) !! key a = None)
    (Hf : func a (world st) = (Return v, w))
    (Hacc : ∀ c, contents c = contents (cache st) →
              is_Some (setitem (key a) v c))
    (Hp : key a ∉ pending st)
    (Hab : key b = key a) :
  ∃ st', calls func key KeyError s [a; b] st = Some ([Return v; Return v], st') ∧
    world st' = w ∧
    contents (cache st') !! key a = Some v ∧
    hits st' = count s (hits st) ∧ misses st' = count s (misses st).
Proof.
  destruct (call_miss_accepted s a st v w)
    as (st1 & Hc1 & Hk1 & Hp1 & Hw1 & Hh1 & Hm1); [done..|].
  destruct (call_hit func key KeyError s b st1 v)
    as (st2 & Hc2 & Hk2 & Hp2 & Hw2 & Hh2 & Hm2);
    [done|by rewrite Hab|by rewrite Hab, Hp1|].
  exists st2. simpl. rewrite Hc1, Hc2. split_and!; try done; congruence.
Qed.

(** A failure is not cached: after a call that raised, the next call
    with that key calls the function again and gets its outcome. *)
Theorem failure_is_not_cached
    (s : strategy) (a b : A) (st : state K C W) (e : E) (w : W)
    (Hk : contents (cache st) !! key a = None)
    (Hf : func a (world st) = (Raise e, w))
    (Hp : key a ∉ pending st)
    (Hab : key b = key a) :
  ∃ st', calls func key KeyError s [a; b] st = Some ([Raise e; (func b w).1], st') ∧
    world st' = (func b w).2 ∧
    hits st' = hits st ∧ misses st' = count s (count s (misses st)).
Proof.
  destruct (call_miss_raise func key KeyError s a st e w)
    as (st1 & Hc1 & _ & Hk1 & Hp1 & Hw1 & Hh1 & Hm1);
    [by rewrite getitem_contents|done..|].
  destruct (call_miss s b st1) as (st2 & Hc2 & Hw2 & Hp2 & Hh2 & Hm2 & _);
    [by rewrite Hk1, Hab|by rewrite Hp1, Hab|].
  exists st2. simpl. rewrite Hc1, Hc2, Hw1. split_and!; try done; congruence.
Qed.

(** Without a cache the wrapper is the function: a run of calls gives
    what the function gives, the cache object and the hit counter are
    never touched, and with counters every call is a miss. *)
Theorem uncached_calls_are_direct
    (s : strategy) (l : list A) (st : state K C W) :
  caching s = false →
  ∃ st', calls func key KeyError s l st
         = Some ((direct func l (world st)).1, st') ∧
    world st' = (direct func l (world st)).2 ∧
    cache st' = cache st ∧ pending st' = pending st ∧ hits st' = hits st ∧
    misses st'
    = (if has_cache_info s then misses st + length l else misses st) ∧
    cache_info info s st'
    = (if has_cache_info s then Some (info 0 (misses st + length l))
       else None).
Proof.
  intros Hs. revert st. induction l as [|a l IH]; intros st; simpl.
  - exists st. destruct s; try discriminate Hs; simpl;
      unfold _uncached_info_cache_info; rewrite ?Nat.add_0_r; done.
  - destruct s; try discriminate Hs; simpl in *;
      unfold _uncached_info_wrapper, _uncached_wrapper; simpl;
      destruct (func a (world st)) as [o w] eqn:Hf; simpl.
    + destruct (IH (set_world w (set_misses (S (misses st)) st)))
        as (st' & -> & Hw & ? & ? & ? & Hm & Hi). simpl in *.
      destruct (direct func l w) as [os w2]. exists st'. simpl in *.
      split_and!; try done; [lia|].
      rewrite Hi. do 2 f_equal. lia.
    + destruct (IH (set_world w st)) as (st' & -> & Hw & ? & ? & ? & Hm & Hi).
      simpl in *. destruct (direct func l w) as [os w2]. by exists st'.
Qed.

(** After [cache_clear] nothing is found: the next call is a miss that
    calls the function, and with counters [cache_info] then gives
    [info(0, 1)]. *)
Theorem call_after_clear_misses
    (s : strategy) (a : A) (st : state K C W)
    (Hp : key a ∉ pending st) :
  ∃ st', call func key KeyError s a (cache_clear s st)
         = Some ((func a (world st)).1, st') ∧
    world st' = (func a (world st)).2 ∧
    cache_info info s st'
    = (if has_cache_info s then Some (info 0 1) else None).
Proof.
  destruct (caching s) eqn:Hs.
  - destruct (call_miss s a (cache_clear s st))
      as (st' & Hc & Hw & _ & Hh & Hm & _).
    + destruct s; try discriminate Hs; simpl; by rewrite clear_contents.
    + by destruct s.
    + exists st'.
      assert (world (cache_clear s st) = world st) as Hwc by (by destruct s).
      rewrite Hwc in *. split_and!; try done.
      destruct s; try discriminate Hs; simpl in *;
        unfold _cached_unlocked_info_cache_info, _cached_cond_info_cache_info,
          _cached_locked_info_cache_info; try done; rewrite Hh, Hm; reflexivity.
  - destruct s; try discriminate Hs; simpl;
      unfold _uncached_info_wrapper, _uncached_wrapper,
        _uncached_info_cache_clear, _uncached_cache_clear; simpl;
      destruct (func a (world st)) as [o w]; eexists; split_and!; reflexivity.
Qed.
End Memoizing.

(** ** Several callers: the condition-gated wrapper *)

Section Gated.
Context {K : Type} `{Countable K}.
Context {V A E C W : Type}.
Context `{!CacheContract K V C}.
Variable func : A → W → outcome V E * W.
Variable key : A → K.
Variable KeyError : K → E.

Abbreviation cond_step := (cond_step func key KeyError).
Abbreviation cond_inv := (cond_inv key).

Lemma wake_holding (p : pc K V A E) : holding (wake p) = holding p.
Proof. by destruct p. Qed.

Lemma wake_owns (p : pc K V A E) : owns (wake p) = owns p.
Proof. by destruct p. Qed.


Lemma wake_request (p : pc K V A E) : request (wake p) = request p.
Proof. by destruct p. Qed.

Lemma wake_not_blocked (p : pc K V A E) a k : wake p ≠ Blocked a k.
Proof. by destruct p. Qed.

Lemma wake_lookup (p : pc K V A E) a k : wake p = Lookup a k → p = Lookup a k.
Proof. by destruct p. Qed.


Lemma lookup_notified (ths : gmap nat (pc K V A E)) t q t' p' :
  <[t:=q]> (notify_all ths) !! t' = Some p' →
  (t' = t ∧ p' = q) ∨ (t' ≠ t ∧ ∃ p0, ths !! t' = Some p0 ∧ p' = wake p0).
Proof.
  destruct (decide (t' = t)) as [->|Hne].
  - rewrite lookup_insert_eq. intros [= <-]. by left.
  - rewrite lookup_insert_ne by done. unfold notify_all.
    rewrite lookup_fmap. destruct (ths !! t') as [p0|]; [|done].
    intros [= <-]. right. eauto.
Qed.

Lemma initial_inv (cf : config K V A E C W) : initial cf → cond_inv cf.
Proof.
  intros (Hl & Hp & _ & _ & Hth). split.
  - intros t p Ht Hh. apply Hth in Ht. by destruct p.
  - intros t. by rewrite Hl.
  - intros t p k Ht Ho. apply Hth in Ht. by destruct p.
  - intros t t' p p' k Ht _ Ho. apply Hth in Ht. by destruct p.
  - intros k. rewrite Hp. set_solver.
  - intros t p a k Ht Ho. apply Hth in Ht. by destruct p.
  - intros t a k Ht. by apply Hth in Ht.
  - intros t a k Ht. by apply Hth in Ht.
Qed.

Ltac pick t' t :=
  destruct (decide (t' = t)) as [->|?];
  [rewrite ?lookup_insert_eq in *|rewrite ?lookup_insert_ne in * by done].

Ltac fin := intros; simplify_eq/=; eauto; try congruence.

(** Thread [t] moves from [p] to [q]: whoever owned a key still does,
    as long as [q] owns what [p] owned. *)
Lemma owner_kept (ths : gmap nat (pc K V A E)) t p q k :
  ths !! t = Some p →
  (owns p = Some k → owns q = Some k) →
  (∃ t0 p0, ths !! t0 = Some p0 ∧ owns p0 = Some k) →
  ∃ t0 p0, <[t:=q]> ths !! t0 = Some p0 ∧ owns p0 = Some k.
Proof.
  intros Ht Hq (t0 & p0 & Ht0 & Ho).
  destruct (decide (t0 = t)) as [->|Hne].
  - exists t, q. rewrite lookup_insert_eq. split; [done|].
    apply Hq. congruence.
  - exists t0, p0. by rewrite lookup_insert_ne.
Qed.

(** Entering a [with] block. *)
Lemma inv_acquire (cf : config K V A E C W) t p q :
  cond_inv cf → threads cf !! t = Some p → lock cf = None →
  holding q = true → owns q = owns p →
  (∀ a k, request q = Some (a, k) → k = key a) →
  (∀ a k, q ≠ Lookup a k) → (∀ a k, q ≠ Blocked a k) →
  cond_inv (Config (shared cf) (Some t) (<[t:=q]> (threads cf))).
Proof.
  intros [I1 I2 I3 I4 I5 I7 I8 I9] Ht Hl Hh Ho Hr Hnl Hnb.
  split; simpl.
  - intros t' p'. pick t' t; [done|]. intros Ht' Hh'.
    apply (I1 _ _ Ht') in Hh'. congruence.
  - intros t' [= <-]. exists q. by rewrite lookup_insert_eq.
  - intros t' p' k'. pick t' t; fin. rewrite Ho in *. eauto.
  - intros t1 t2 p1 p2 k'. pick t1 t; pick t2 t; fin; rewrite Ho in *; eauto.
  - intros k' Hk'. eapply owner_kept; eauto. congruence.
  - intros t' p' a' k'. pick t' t; fin.
  - intros t' a' k'. pick t' t; fin; by destruct (Hnl a' k').
  - intros t' a' k'. pick t' t; fin; by destruct (Hnb a' k').
Qed.

Lemma cond_inv_step t (cf cf' : config K V A E C W) :
  cond_inv cf → cond_step t cf = Some cf' → cond_inv cf'.
Proof.
  intros Hinv. pose proof Hinv as [I1 I2 I3 I4 I5 I7 I8 I9].
  unfold_step.
  destruct (threads cf !! t) as [p|] eqn:Ht; [|done].
  destruct p; try done; unfold acquire, release;
    try (destruct (lock cf) eqn:Hl; [done|]; intros [= <-];
         eapply inv_acquire; by eauto).
  - (* Start *)
    destruct (lock cf) eqn:Hl; [done|]. intros [= <-].
    eapply inv_acquire; eauto. by intros a' k' [= <- <-].
  - (* WaitFor *)
    assert (Hlk : lock cf = Some t) by (by apply (I1 _ _ Ht)).
    case_decide; intros [= <-]; split; simpl.
    + intros t' p'. pick t' t; [fin|]. intros Ht' Hh'.
      apply (I1 _ _ Ht') in Hh'. congruence.
    + done.
    + intros t' p' k'. pick t' t; fin.
    + intros t1 t2 p1 p2 k'. pick t1 t; pick t2 t; fin.
    + intros k' Hk'. eapply owner_kept; eauto; done.
    + intros t' p' a' k'. pick t' t; fin.
    + intros t' a' k'. pick t' t; fin.
    + intros t' a' k'. pick t' t; fin.
    + intros t' p'. pick t' t; fin.
    + intros t' Ht'. pick t' t; fin.
    + intros t' p' k'. pick t' t; fin.
    + intros t1 t2 p1 p2 k'. pick t1 t; pick t2 t; fin.
    + intros k' Hk'. eapply owner_kept; eauto; done.
    + intros t' p' a' k'. pick t' t; fin.
    + intros t' a' k'. pick t' t; fin.
    + intros t' a' k'. pick t' t; fin.
  - (* Lookup *)
    assert (Hlk : lock cf = Some t) by (by apply (I1 _ _ Ht)).
    assert (Hnp : k ∉ pending (shared cf)) by eauto.
    unfold _cached_cond_info_lookup.
    destruct (getitem k (cache (shared cf))) as [[r|] c1];
      intros [= <-]; split; simpl.
    + intros t' p'. pick t' t; [fin|]. intros Ht' Hh'.
      apply (I1 _ _ Ht') in Hh'. congruence.
    + done.
    + intros t' p' k'. pick t' t; fin.
    + intros t1 t2 p1 p2 k'. pick t1 t; pick t2 t; fin.
    + intros k' Hk'. eapply owner_kept; eauto; done.
    + intros t' p' a' k'. pick t' t; fin.
    + intros t' a' k'. pick t' t; fin.
    + intros t' a' k'. pick t' t; fin.
    + intros t' p'. pick t' t; [fin|]. intros Ht' Hh'.
      apply (I1 _ _ Ht') in Hh'. congruence.
    + done.
    + intros t' p' k'. pick t' t; fin; set_solver.
    + intros t1 t2 p1 p2 k'. pick t1 t; pick t2 t; fin; exfalso; eauto.
    + intros k' Hk'. destruct (decide (k' = k)) as [->|Hne].
      * exists t, (Call a k). by rewrite lookup_insert_eq.
      * eapply owner_kept; eauto; [done|]. apply I5. set_solver.
    + intros t' p' a' k'. pick t' t; fin.
    + intros t' a' k'. pick t' t; [fin|]. intros Ht'.
      assert (lock cf = Some t') by (by apply (I1 _ _ Ht')). congruence.
    + intros t' a' k'. pick t' t; fin. set_solver.
  - (* Call *)
    destruct (func a (world (shared cf))) as [[v|e] w];
      intros [= <-]; split; simpl.
    all: try (intros t' p'; pick t' t; by fin).
    all: try (intros t' Ht'; pick t' t; [|by fin];
              destruct (I2 _ Ht') as (p0 & ? & ?); by fin).
    all: try (intros t' p' k'; pick t' t; by fin).
    all: try (intros t1 t2 p1 p2 k'; pick t1 t; pick t2 t; by fin).
    all: try (intros k' Hk'; eapply owner_kept; by eauto).
    all: try (intros t' p' a' k'; pick t' t; by fin).
  - (* Storing *)
    assert (Hlk : lock cf = Some t) by (by apply (I1 _ _ Ht)).
    assert (Hp : pending (_cached_cond_info_store k v (shared cf))
                 = pending (shared cf)).
    { unfold _cached_cond_info_store.
      by destruct (setitem k v (cache (shared cf))). }
    intros [= <-]; split; simpl; rewrite ?Hp.
    + intros t' p'. pick t' t; [fin|]. intros Ht' Hh'.
      apply (I1 _ _ Ht') in Hh'. congruence.
    + done.
    + intros t' p' k'. pick t' t; fin.
    + intros t1 t2 p1 p2 k'. pick t1 t; pick t2 t; fin.
    + intros k' Hk'. eapply owner_kept; eauto; done.
    + intros t' p' a' k'. pick t' t; fin.
    + intros t' a' k'. pick t' t; fin.
    + intros t' a' k'. pick t' t; fin.
  - (* Cleanup *)
    assert (Hlk : lock cf = Some t) by (by apply (I1 _ _ Ht)).
    assert (Hp : k ∈ pending (shared cf)) by (by eapply I3).
    unfold _cached_cond_info_cleanup. rewrite decide_True by done.
    intros [= <-]; split; simpl.
    + intros t' p' [[-> ->]|(Hne & p0 & Ht' & ->)]%lookup_notified; [done|].
      rewrite wake_holding. intros Hh'. apply (I1 _ _ Ht') in Hh'. congruence.
    + done.
    + intros t' p' k' [[-> ->]|(Hne & p0 & Ht' & ->)]%lookup_notified; [done|].
      rewrite wake_owns. intros Ho. apply elem_of_difference.
      split; [by eauto|].
      intros ->%elem_of_singleton. by eapply Hne, I4.
    + intros t1 t2 p1 p2 k'
        [[-> ->]|(Hne1 & q1 & Ht1 & ->)]%lookup_notified
        [[-> ->]|(Hne2 & q2 & Ht2 & ->)]%lookup_notified; try done.
      rewrite !wake_owns. eauto.
    + intros k' [Hk' Hne]%elem_of_difference.
      destruct (I5 _ Hk') as (t0 & p0 & Ht0 & Ho).
      assert (t0 ≠ t).
      { intros ->. rewrite Ht in Ht0. simplify_eq/=. set_solver. }
      exists t0, (wake p0). rewrite lookup_insert_ne by done.
      unfold notify_all. by rewrite lookup_fmap, Ht0, wake_owns.
    + intros t' p' a' k' [[-> ->]|(Hne & p0 & Ht' & ->)]%lookup_notified;
        [done|].
      rewrite wake_request. eauto.
    + intros t' a' k' [[-> ?]|(Hne & p0 & Ht' & Hw)]%lookup_notified; [done|].
      symmetry in Hw. apply wake_lookup in Hw as ->.
      assert (lock cf = Some t') by (by apply (I1 _ _ Ht')). congruence.
    + intros t' a' k' [[-> ?]|(Hne & p0 & Ht' & Hw)]%lookup_notified; [done|].
      symmetry in Hw. by apply wake_not_blocked in Hw.
  - (* Clearing *)
    assert (Hlk : lock cf = Some t) by (by apply (I1 _ _ Ht)).
    intros [= <-]; split; simpl.
    + intros t' p'. pick t' t; [fin|]. intros Ht' Hh'.
      apply (I1 _ _ Ht') in Hh'. congruence.
    + done.
    + intros t' p' k'. pick t' t; fin.
    + intros t1 t2 p1 p2 k'. pick t1 t; pick t2 t; fin.
    + intros k' Hk'. eapply owner_kept; eauto; done.
    + intros t' p' a' k'. pick t' t; fin.
    + intros t' a' k'. pick t' t; fin.
    + intros t' a' k'. pick t' t; fin.
Qed.

Lemma run_inv (P : config K V A E C W → Prop)
    (step : nat → config K V A E C W → option (config K V A E C W))
    (sched : list nat) (cf : config K V A E C W) :
  (∀ t cf cf', P cf → step t cf = Some cf' → P cf') →
  P cf → P (run step sched cf).
Proof.
  intros Hstep. revert cf. unfold run.
  induction sched as [|t sched IH]; intros cf Hcf; simpl; [done|].
  apply IH. destruct (step t cf) as [cf'|] eqn:Hs; simpl; eauto.
Qed.

Lemma reachable_inv (cf : config K V A E C W) :
  reachable cond_step cf → cond_inv cf.
Proof.
  intros (cf0 & sched & Hi & ->). apply run_inv.
  - intros t cf cf'. apply cond_inv_step.
  - by apply initial_inv.
Qed.

Lemma reachable_step
    (step : nat → config K V A E C W → option (config K V A E C W))
    (t : nat) (cf cf' : config K V A E C W) :
  reachable step cf → step t cf = Some cf' → reachable step cf'.
Proof.
  intros (cf0 & sched & Hi & ->) Hs. exists cf0, (sched ++ [t]).
  split; [done|]. unfold run in *. rewrite foldl_app. simpl. by rewrite Hs.
Qed.

(** C7. In every run of the condition-gated wrapper: a call enters by
    taking the lock; holding it, it tests whether its key is pending, and
    while it is, releases the lock and sleeps without having looked at the
    cache; the lookup is made only by the lock holder, with the key not
    pending.  On a miss the same step that releases the lock has put the
    key in the pending set and counted the miss.  A call about to run the
    function has its key in the pending set, and no other call has put
    that key there. *)
Theorem C7_condition_gated_ordering
    (cf : config K V A E C W) (t : nat)
    (Hr : reachable cond_step cf) :
  (∀ a, threads cf !! t = Some (Start a) →
     cond_step t cf
     = match lock cf with
       | None => Some (Config (shared cf) (Some t)
                         (<[t:=WaitFor a (key a)]> (threads cf)))
       | Some _ => None
       end) ∧
  (∀ a k, threads cf !! t = Some (WaitFor a k) →
     lock cf = Some t ∧ k = key a ∧
     cond_step t cf
     = Some (if decide (k ∈ pending (shared cf))
             then Config (shared cf) None (<[t:=Blocked a k]> (threads cf))
             else Config (shared cf) (Some t)
                    (<[t:=Lookup a k]> (threads cf)))) ∧
  (∀ a k, threads cf !! t = Some (Blocked a k) →
     k = key a ∧ k ∈ pending (shared cf) ∧ cond_step t cf = None) ∧
  (∀ a k, threads cf !! t = Some (Lookup a k) →
     lock cf = Some t ∧ k = key a ∧ k ∉ pending (shared cf) ∧
     ∃ cf', cond_step t cf = Some cf' ∧ lock cf' = None ∧
       match (getitem k (cache (shared cf))).1 with
       | Some result =>
           threads cf' !! t = Some (Done (Return result)) ∧
           pending (shared cf') = pending (shared cf) ∧
           hits (shared cf') = S (hits (shared cf)) ∧
           misses (shared cf') = misses (shared cf)
       | None =>
           threads cf' !! t = Some (Call a k) ∧
           pending (shared cf') = {[k]} ∪ pending (shared cf) ∧
           hits (shared cf') = hits (shared cf) ∧
           misses (shared cf') = S (misses (shared cf))
       end) ∧
  (∀ a k, threads cf !! t = Some (Call a k) →
     k = key a ∧ k ∈ pending (shared cf) ∧
     ∀ t' p', threads cf !! t' = Some p' → owns p' = Some k → t' = t).
Proof.
  apply reachable_inv in Hr as [I1 I2 I3 I4 I5 I7 I8 I9].
  split_and!.
  - intros a Ht. unfold_step. by rewrite Ht.
  - intros a k Ht.
    assert (Hlk : lock cf = Some t) by (by apply (I1 _ _ Ht)).
    split_and!; [done|by eapply I7|].
    unfold_step. rewrite Ht, Hlk. by case_decide.
  - intros a k Ht. split_and!; [by eapply I7|by eapply I9|].
    unfold_step. by rewrite Ht.
  - intros a k Ht. split_and!; [by apply (I1 _ _ Ht)|by eapply I7|by eauto|].
    unfold_step; unfold _cached_cond_info_lookup.
    rewrite Ht.
    destruct (getitem k (cache (shared cf))) as [[r|] c1]; simpl;
      eexists; (split; [done|]); simpl; by rewrite lookup_insert_eq.
  - intros a k Ht. split_and!; [by eapply I7|by eapply I3|].
    intros t' p' Ht' Ho. by eapply I4.
Qed.

(** C1. In every run of the condition-gated wrapper, a call whose function
    raises goes to the cleanup with nothing stored; holding the lock, it
    takes its key out of the pending set, where the key was, wakes every
    sleeping thread, releases the lock and only then ends with the
    exception the function raised; the cache and the counters are as
    they were.  Once no call is between its miss and its cleanup, the
    pending set is empty. *)
Theorem C1_condition_gated_cleanup_on_failure
    (cf : config K V A E C W) (t : nat) (a : A) (k : K) (e : E) (w : W)
    (Hr : reachable cond_step cf)
    (Ht : threads cf !! t = Some (Call a k))
    (Hf : func a (world (shared cf)) = (Raise e, w)) :
  cond_step t cf
  = Some (Config (set_world w (shared cf)) (lock cf)
            (<[t:=Finally k (Raise e)]> (threads cf))) ∧
  ∀ cf1 : config K V A E C W, reachable cond_step cf1 →
    (threads cf1 !! t = Some (Finally k (Raise e)) →
       k ∈ pending (shared cf1) ∧
       cond_step t cf1
       = match lock cf1 with
         | None => Some (Config (shared cf1) (Some t)
                           (<[t:=Cleanup k (Raise e)]> (threads cf1)))
         | Some _ => None
         end) ∧
    (threads cf1 !! t = Some (Cleanup k (Raise e)) →
       lock cf1 = Some t ∧ k ∈ pending (shared cf1) ∧
       ∃ cf2, cond_step t cf1 = Some cf2 ∧
         threads cf2 !! t = Some (Done (Raise e)) ∧
         lock cf2 = None ∧
         pending (shared cf2) = pending (shared cf1) ∖ {[k]} ∧
         k ∉ pending (shared cf2) ∧
         cache (shared cf2) = cache (shared cf1) ∧
         hits (shared cf2) = hits (shared cf1) ∧
         misses (shared cf2) = misses (shared cf1) ∧
         (∀ t' a' k', threads cf1 !! t' = Some (Blocked a' k') →
            threads cf2 !! t' = Some (Notified a' k')) ∧
         (∀ t' a' k', threads cf2 !! t' ≠ Some (Blocked a' k'))) ∧
    ((∀ t' p', threads cf1 !! t' = Some p' → owns p' = None) →
       pending (shared cf1) = ∅).
Proof.
  split.
  - unfold_step. by rewrite Ht, Hf.
  - intros cf1 [I1 I2 I3 I4 I5 I7 I8 I9]%reachable_inv. split_and!.
    + intros Ht1. split; [by eapply I3|].
      unfold_step. by rewrite Ht1.
    + intros Ht1.
      assert (Hp : k ∈ pending (shared cf1)) by (by eapply I3).
      split_and!; [by apply (I1 _ _ Ht1)|done|].
      unfold_step; unfold _cached_cond_info_cleanup.
      rewrite Ht1, decide_True by done.
      eexists; split; [done|]. simpl. split_and!; try done.
      * by rewrite lookup_insert_eq.
      * set_solver.
      * intros t' a' k' Ht'.
        assert (t' ≠ t) by (intros ->; congruence).
        rewrite lookup_insert_ne by done. unfold notify_all.
        by rewrite lookup_fmap, Ht'.
      * intros t' a' k' [[-> ?]|(Hne & p0 & Ht' & Hw)]%lookup_notified;
          [done|].
        symmetry in Hw. by apply wake_not_blocked in Hw.
    + intros Hnone. apply set_eq. intros k'. split; [|set_solver].
      intros Hk'. destruct (I5 _ Hk') as (t' & p' & Ht' & Ho).
      rewrite (Hnone _ _ Ht') in Ho. done.
Qed.
End Gated.

Section GatedCache.
Context {K : Type} `{Countable K}.
Context {V A E C W : Type}.
Context `{!CacheContract K V C} `{!CacheLaws K V C}.
Variable func : A → W → outcome V E * W.
Variable key : A → K.
Variable KeyError : K → E.

Abbreviation cond_step := (cond_step func key KeyError).
Abbreviation cond_inv := (cond_inv key).

Ltac pick t' t :=
  destruct (decide (t' = t)) as [->|?];
  [rewrite ?lookup_insert_eq in *|rewrite ?lookup_insert_ne in * by done].

Ltac fin := intros; simplify_eq/=; eauto; try congruence.













End GatedCache.

(** ** Runs of the condition-gated wrapper *)

Section GatedRuns.
Context {K : Type} `{Countable K}.
Context {V A E C W : Type}.
Context `{!CacheContract K V C}.
Variable func : A → W → outcome V E * W.
Variable key : A → K.
Variable KeyError : K → E.

(** A thread inside a [with] block can always move. *)
Lemma holder_moves (cf : config K V A E C W) t p :
  threads cf !! t = Some p → holding p = true →
  is_Some (cond_step func key KeyError t cf).
Proof.
  intros Ht Hh. unfold_step. rewrite Ht.
  destruct p; try discriminate Hh.
  - by case_decide.
  - by destruct (_cached_cond_info_lookup k (shared cf)) as [[r|] s].
  - done.
  - by destruct (_cached_cond_info_cleanup k (shared cf)).
  - done.
Qed.

(** With the lock free, any thread that has not finished and does not
    sleep can move. *)
Lemma awake_moves (cf : config K V A E C W) t p :
  threads cf !! t = Some p → lock cf = None →
  finished p = false → (∀ a k, p ≠ Blocked a k) →
  is_Some (cond_step func key KeyError t cf).
Proof.
  intros Ht Hl Hf Hb. unfold_step. rewrite Ht, ?Hl.
  destruct p; try discriminate Hf; try done.
  - by case_decide.
  - by destruct (Hb a k).
  - by destruct (_cached_cond_info_lookup k (shared cf)) as [[r|] s].
  - by destruct (func a (world (shared cf))) as [[v|e] w].
  - by destruct (_cached_cond_info_cleanup k (shared cf)).
Qed.

(** In no run does [pending.remove] raise: a call that reaches the
    cleanup finds its key pending, takes it out, and ends with the
    outcome it came with, value or exception. *)
Theorem cleanup_never_raises
    (cf : config K V A E C W) (t : nat) (k : K) (o : outcome V E)
    (Hr : reachable (cond_step func key KeyError) cf)
    (Ht : threads cf !! t = Some (Cleanup k o)) :
  k ∈ pending (shared cf) ∧
  _cached_cond_info_cleanup k (shared cf)
  = Some (set_pending (pending (shared cf) ∖ {[k]}) (shared cf)) ∧
  cond_step func key KeyError t cf
  = Some (Config (set_pending (pending (shared cf) ∖ {[k]}) (shared cf)) None
            (<[t:=Done o]> (notify_all (threads cf)))).
Proof.
  apply reachable_inv in Hr as [I1 I2 I3 I4 I5 I7 I8 I9].
  assert (Hp : k ∈ pending (shared cf)) by (by eapply I3).
  assert (Hc : _cached_cond_info_cleanup k (shared cf)
               = Some (set_pending (pending (shared cf) ∖ {[k]}) (shared cf))).
  { unfold _cached_cond_info_cleanup. by rewrite decide_True. }
  split_and!; try done. unfold_step. by rewrite Ht, Hc.
Qed.

Lemma run_nil
    (step : nat → config K V A E C W → option (config K V A E C W))
    (cf : config K V A E C W) :
  run step [] cf = cf.
Proof. done. Qed.

Lemma run_cons
    (step : nat → config K V A E C W → option (config K V A E C W))
    (t : nat) (sched : list nat) (cf : config K V A E C W) :
  run step (t :: sched) cf = run step sched (default cf (step t cf)).
Proof. done. Qed.

(** The step of a thread whose program point is known. *)
Lemma cond_step_at (cf : config K V A E C W) t p :
  threads cf !! t = Some p →
  cond_step func key KeyError t cf
  = match p with
    | Start a => acquire t (WaitFor a (key a)) cf
    | WaitFor a k =>
        if decide (k ∈ pending (shared cf))
        then Some (release t (Blocked a k) (shared cf) cf)
        else Some (Config (shared cf) (lock cf)
                     (<[t:=Lookup a k]> (threads cf)))
    | Notified a k => acquire t (WaitFor a k) cf
    | Lookup a k =>
        match _cached_cond_info_lookup k (shared cf) with
        | (Some result, s) => Some (release t (Done (Return result)) s cf)
        | (None, s) => Some (release t (Call a k) s cf)
        end
    | Call a k =>
        match func a (world (shared cf)) with
        | (Return v, w) =>
            Some (Config (set_world w (shared cf)) (lock cf)
                    (<[t:=Store k v]> (threads cf)))
        | (Raise e, w) =>
            Some (Config (set_world w (shared cf)) (lock cf)
                    (<[t:=Finally k (Raise e)]> (threads cf)))
        end
    | Store k v => acquire t (Storing k v) cf
    | Storing k v =>
        Some (release t (Finally k (Return v))
                (_cached_cond_info_store k v (shared cf)) cf)
    | Finally k o => acquire t (Cleanup k o) cf
    | Cleanup k o =>
        match _cached_cond_info_cleanup k (shared cf) with
        | Some s =>
            Some (Config s None (<[t:=Done o]> (notify_all (threads cf))))
        | None => Some (release t (Done (Raise (KeyError k))) (shared cf) cf)
        end
    | ClearStart => acquire t Clearing cf
    | Clearing =>
        Some (release t Cleared (_cached_cond_info_cache_clear (shared cf)) cf)
    | Blocked _ _ | Done _ | Cleared => None
    end.
Proof. intros Ht. unfold cond_step. by rewrite Ht. Qed.

Ltac stays :=
  eexists; split; [done|]; right; simpl;
  rewrite lookup_insert_ne, lookup_insert_eq by done;
  split_and!;
  [done|by eauto|eexists; split_and!; [done|done|simpl; lia]].

Lemma run_app
    (step : nat → config K V A E C W → option (config K V A E C W))
    (sched sched' : list nat) (cf : config K V A E C W) :
  run step (sched ++ sched') cf = run step sched' (run step sched cf).
Proof. unfold run. by rewrite foldl_app. Qed.

(** A step of the call that owns key [k], possible whenever the lock is
    free or its own: it wakes the thread that sleeps on [k], or brings
    the call nearer to its cleanup with the sleeper still asleep. *)
Lemma owner_step (cf : config K V A E C W) t a k t1 p1 :
  cond_inv key cf →
  threads cf !! t = Some (Blocked a k) →
  threads cf !! t1 = Some p1 → owns p1 = Some k →
  lock cf = None ∨ lock cf = Some t1 →
  ∃ cf', cond_step func key KeyError t1 cf = Some cf' ∧
    (threads cf' !! t = Some (Notified a k) ∨
     threads cf' !! t = Some (Blocked a k) ∧
     (lock cf' = None ∨ lock cf' = Some t1) ∧
     ∃ p1', threads cf' !! t1 = Some p1' ∧ owns p1' = Some k ∧
       remaining p1' < remaining p1).
Proof.
  intros [I1 I2 I3 I4 I5 I7 I8 I9] Ht Ht1 Ho Hl.
  assert (t ≠ t1) as Hne by (intros ->; rewrite Ht in Ht1; by simplify_eq).
  assert (Hfree : holding p1 = false → lock cf = None).
  { intros Hh. destruct Hl as [Hl|Hl]; [done|].
    destruct (I2 _ Hl) as (p0 & Hp0 & Hh0). congruence. }
  assert (Hheld : holding p1 = true → lock cf = Some t1) by eauto.
  rewrite (cond_step_at cf t1 p1 Ht1).
  unfold acquire, release.
  destruct p1; try discriminate Ho; simpl in Ho; simplify_eq.
  - destruct (func a0 (world (shared cf))) as [[v|e] w]; stays.
  - rewrite (Hfree eq_refl). stays.
  - stays.
  - rewrite (Hfree eq_refl). stays.
  - unfold _cached_cond_info_cleanup.
    rewrite decide_True by (by eapply I3).
    eexists; (split; [done|]); left; simpl.
    rewrite lookup_insert_ne by done. unfold notify_all.
    by rewrite lookup_fmap, Ht.
Qed.

(** So the owner's steps alone, taken one after the other, wake the
    sleeper. *)
Lemma owner_wakes (n : nat) (cf : config K V A E C W) t a k t1 p1 :
  remaining p1 ≤ n →
  reachable (cond_step func key KeyError) cf →
  threads cf !! t = Some (Blocked a k) →
  threads cf !! t1 = Some p1 → owns p1 = Some k →
  lock cf = None ∨ lock cf = Some t1 →
  ∃ sched,
    threads (run (cond_step func key KeyError) sched cf) !! t
    = Some (Notified a k).
Proof.
  revert cf p1. induction n as [|n IH]; intros cf p1 Hn Hr Ht Ht1 Ho Hl.
  { destruct p1; try discriminate Ho; simpl in Hn; lia. }
  destruct (owner_step cf t a k t1 p1 (reachable_inv _ _ _ _ Hr) Ht Ht1 Ho Hl)
    as (cf' & Hs & [Hw|(Hb & Hl' & p1' & Ht1' & Ho' & Hlt)]).
  - exists [t1]. unfold run. simpl. by rewrite Hs.
  - destruct (IH cf' p1') as [sched Hsched]; try done; [lia| |].
    + by eapply reachable_step.
    + exists (t1 :: sched). unfold run in *. simpl. by rewrite Hs.
Qed.

(** A step of the thread that holds the lock: it wakes the sleeper, or
    leaves it asleep and frees the lock, or goes from the test of
    [wait_for] to the lookup. *)
Lemma holder_step (cf : config K V A E C W) t a k t0 :
  cond_inv key cf →
  threads cf !! t = Some (Blocked a k) →
  lock cf = Some t0 →
  ∃ cf', cond_step func key KeyError t0 cf = Some cf' ∧
    (threads cf' !! t = Some (Notified a k) ∨
     threads cf' !! t = Some (Blocked a k) ∧
     (lock cf' = None ∨
      lock cf' = Some t0 ∧
      ∃ a0 k0, threads cf !! t0 = Some (WaitFor a0 k0) ∧
        threads cf' !! t0 = Some (Lookup a0 k0))).
Proof.
  intros [I1 I2 I3 I4 I5 I7 I8 I9] Ht Hl.
  destruct (I2 _ Hl) as (p0 & Ht0 & Hh).
  assert (t ≠ t0) as Hne by (intros ->; rewrite Ht in Ht0; by simplify_eq).
  rewrite (cond_step_at cf t0 p0 Ht0).
  unfold release.
  destruct p0; try discriminate Hh.
  - case_decide; eexists; (split; [done|]); right; simpl;
      rewrite lookup_insert_ne by done; (split; [done|]); [by left|].
    right. split; [done|]. eexists _, _. split; [done|].
    by rewrite lookup_insert_eq.
  - destruct (_cached_cond_info_lookup k0 (shared cf)) as [[r|] s];
      eexists; (split; [done|]); right; simpl;
      rewrite lookup_insert_ne by done; by eauto.
  - eexists; (split; [done|]); right; simpl.
    rewrite lookup_insert_ne by done; by eauto.
  - destruct (_cached_cond_info_cleanup k0 (shared cf));
      eexists; (split; [done|]); simpl.
    + left. rewrite lookup_insert_ne by done. unfold notify_all.
      by rewrite lookup_fmap, Ht.
    + right. rewrite lookup_insert_ne by done; by eauto.
  - eexists; (split; [done|]); right; simpl.
    rewrite lookup_insert_ne by done; by eauto.
Qed.

(** Whoever holds the lock gives it up within two steps. *)
Lemma holder_releases (cf : config K V A E C W) t a k :
  reachable (cond_step func key KeyError) cf →
  threads cf !! t = Some (Blocked a k) →
  ∃ sched,
    let cf' := run (cond_step func key KeyError) sched cf in
    reachable (cond_step func key KeyError) cf' ∧
    (threads cf' !! t = Some (Notified a k) ∨
     threads cf' !! t = Some (Blocked a k) ∧ lock cf' = None).
Proof.
  intros Hr Ht. destruct (lock cf) as [t0|] eqn:Hl; [|exists []; by eauto].
  destruct (holder_step cf t a k t0 (reachable_inv _ _ _ _ Hr) Ht Hl)
    as (cf1 & Hs1 & Hcase).
  assert (Hr1 : reachable (cond_step func key KeyError) cf1)
    by (by eapply reachable_step).
  assert (Hrun1 : run (cond_step func key KeyError) [t0] cf = cf1)
    by (unfold run; simpl; by rewrite Hs1).
  destruct Hcase as [Hw|(Hb & [Hl1|(Hl1 & a0 & k0 & _ & Ht0)])].
  - exists [t0]. rewrite Hrun1. by eauto.
  - exists [t0]. rewrite Hrun1. by eauto.
  - destruct (holder_step cf1 t a k t0 (reachable_inv _ _ _ _ Hr1) Hb Hl1)
      as (cf2 & Hs2 & Hcase).
    assert (Hr2 : reachable (cond_step func key KeyError) cf2)
      by (by eapply reachable_step).
    assert (Hrun2 : run (cond_step func key KeyError) [t0; t0] cf = cf2)
      by (unfold run; simpl; by rewrite Hs1; simpl; rewrite Hs2).
    exists [t0; t0]. rewrite Hrun2. split; [done|].
    destruct Hcase as [Hw|(Hb2 & [Hl2|(_ & a1 & k1 & Ht0' & _)])];
      [by left|by right|congruence].
Qed.

(** No wake-up is lost: from wherever a thread sleeps in a run, the
    run goes on to where it is woken. *)
Lemma sleeper_woken (cf : config K V A E C W) t a k :
  reachable (cond_step func key KeyError) cf →
  threads cf !! t = Some (Blocked a k) →
  ∃ sched,
    threads (run (cond_step func key KeyError) sched cf) !! t
    = Some (Notified a k).
Proof.
  intros Hr Ht.
  destruct (holder_releases cf t a k Hr Ht) as (s0 & Hr0 & [Hw|[Hb Hl]]);
    [by exists s0|].
  pose proof (reachable_inv _ _ _ _ Hr0) as Hinv.
  destruct (inv_pending _ _ Hinv k (inv_blocked _ _ Hinv _ _ _ Hb))
    as (t1 & p1 & Ht1 & Ho).
  destruct (owner_wakes (remaining p1) _ t a k t1 p1 (le_n _) Hr0 Hb Ht1 Ho
              (or_introl Hl)) as [s1 Hs1].
  exists (s0 ++ s1). by rewrite run_app.
Qed.

(** The condition-gated wrapper never deadlocks and loses no wake-up,
    for a wrapped function that returns or raises and does not call the
    wrapper itself, which is what [func], a function of its argument and
    of its own state, is here; a function that called the wrapper with
    the key of its own call would sleep in [wait_for] for ever.  In
    every run, as long as some call has not finished, some thread can
    move.  A sleeping thread waits for a key that is pending; the call
    that put the key there is another thread's, has not finished and is
    not asleep; and the run can go on to where the sleeper is woken. *)
Theorem condition_gated_never_deadlocks
    (cf : config K V A E C W) (t : nat) (p : pc K V A E)
    (Hr : reachable (cond_step func key KeyError) cf)
    (Ht : threads cf !! t = Some p)
    (Hf : finished p = false) :
  (∃ t' cf', cond_step func key KeyError t' cf = Some cf') ∧
  (∀ a k, p = Blocked a k →
     k ∈ pending (shared cf) ∧
     (∃ t1 p1, t1 ≠ t ∧ threads cf !! t1 = Some p1 ∧ owns p1 = Some k ∧
        finished p1 = false ∧ ∀ a' k', p1 ≠ Blocked a' k') ∧
     ∃ sched,
       threads (run (cond_step func key KeyError) sched cf) !! t
       = Some (Notified a k)).
Proof.
  pose proof (reachable_inv _ _ _ _ Hr) as [I1 I2 I3 I4 I5 I7 I8 I9].
  split.
  - assert (Hmove : ∀ t' p', threads cf !! t' = Some p' →
              is_Some (cond_step func key KeyError t' cf) →
              ∃ t' cf', cond_step func key KeyError t' cf = Some cf').
    { intros t' p' _ [cf' Hs]. eauto. }
    destruct (lock cf) as [t0|] eqn:Hl.
    + destruct (I2 t0 eq_refl) as (p0 & Ht0 & Hh0).
      eapply Hmove; [done|]. by eapply holder_moves.
    + assert ((∃ a k, p = Blocked a k) ∨ (∀ a k, p ≠ Blocked a k))
        as [(a & k & ->)|Hnb] by (destruct p; eauto).
      * destruct (I5 k (I9 _ _ _ Ht)) as (t1 & p1 & Ht1 & Ho).
        eapply Hmove; [exact Ht1|]. eapply awake_moves; try done.
        -- by destruct p1.
        -- intros a' k' ->. done.
      * eapply Hmove; [exact Ht|]. by eapply awake_moves.
  - intros a k ->. split_and!.
    + by eapply I9.
    + destruct (I5 k (I9 _ _ _ Ht)) as (t1 & p1 & Ht1 & Ho).
      exists t1, p1. split_and!; try done.
      * intros ->. rewrite Ht in Ht1. by simplify_eq.
      * by destruct p1.
      * intros a' k' ->. done.
    + by apply sleeper_woken.
Qed.

Ltac solo_step :=
  rewrite run_cons;
  erewrite cond_step_at by (first [eassumption|apply lookup_insert_eq]);
  unfold acquire, release; cbn -[run cond_step].

(** A thread that cannot move stays where it is. *)
Lemma run_stuck
    (step : nat → config K V A E C W → option (config K V A E C W))
    (t : nat) (n : nat) (cf : config K V A E C W) :
  step t cf = None → run step (replicate n t) cf = cf.
Proof.
  intros Hs. induction n as [|n IH]; [done|].
  cbn [replicate]. by rewrite run_cons, Hs.
Qed.

(** The steps of a call, taken with no other thread moving in between,
    amount to the call as one caller sees it: the same outcome, the same
    cache, counters and pending set; and the call that finds its key
    pending goes to sleep where the sequential call does not return. *)
Theorem solo_steps_are_the_sequential_call
    (cf : config K V A E C W) (t : nat) (a : A)
    (Ht : threads cf !! t = Some (Start a))
    (Hl : lock cf = None) :
  let cf' := run (cond_step func key KeyError) (replicate 8 t) cf in
  lock cf' = None ∧
  match _cached_cond_info_wrapper func key KeyError a (shared cf) with
  | Some (o, st') => shared cf' = st' ∧ threads cf' !! t = Some (Done o)
  | None =>
      shared cf' = shared cf ∧ threads cf' !! t = Some (Blocked a (key a))
  end.
Proof.
  cbv zeta. cbn [replicate]. unfold _cached_cond_info_wrapper,
    _cached_cond_info_finally.
  solo_step. rewrite Hl. cbn -[run cond_step]. solo_step.
  case_decide as Hp; cbn -[run cond_step].
  { rewrite (run_stuck _ t 6).
    - cbn [shared lock threads]. split_and!; try done;
      apply lookup_insert_eq.
    - erewrite cond_step_at by apply lookup_insert_eq. done. }
  solo_step.
  destruct (_cached_cond_info_lookup (key a) (shared cf)) as [[r|] s1];
    cbn -[run cond_step].
  { rewrite (run_stuck _ t 5).
    - cbn [shared lock threads]. split_and!; try done;
      apply lookup_insert_eq.
    - erewrite cond_step_at by apply lookup_insert_eq. done. }
  solo_step.
  destruct (func a (world s1)) as [[v|e] w]; cbn -[run cond_step].
  - do 4 solo_step.
    destruct (_cached_cond_info_cleanup (key a)
                (_cached_cond_info_store (key a) v (set_world w s1)))
      as [s4|]; cbn -[run cond_step]; rewrite run_nil;
      cbn [shared lock threads]; split_and!; try done;
      apply lookup_insert_eq.
  - do 2 solo_step.
    destruct (_cached_cond_info_cleanup (key a) (set_world w s1))
      as [s4|]; cbn -[run cond_step].
    + rewrite (run_stuck _ t 2).
      * cbn [shared lock threads]. split_and!; try done;
      apply lookup_insert_eq.
      * erewrite cond_step_at by apply lookup_insert_eq. done.
    + rewrite (run_stuck _ t 2).
      * cbn [shared lock threads]. split_and!; try done;
      apply lookup_insert_eq.
      * erewrite cond_step_at by apply lookup_insert_eq. done.
Qed.
End GatedRuns.

(** ** Several callers: the locked wrappers *)

Ltac unfold_locked_step :=
  unfold _cached_locked_info_step, _cached_locked_step, locked_step,
    acquire, release.

Section LockedRuns.
Context {K : Type} `{Countable K}.
Context {V A E C W : Type}.
Context `{!CacheContract K V C}.
Variable func : A → W → outcome V E * W.
Variable key : A → K.
Variable lookup : K → state K C W → option V * state K C W.
Variable clearing : state K C W → state K C W.

Lemma locked_initial_inv (cf : config K V A E C W) :
  initial cf → locked_inv cf.
Proof.
  intros (Hl & _ & _ & _ & Hth). split.
  - intros t p Ht Hh. apply Hth in Ht. by destruct p.
  - intros t. by rewrite Hl.
  - intros t p Ht. apply Hth in Ht. by destruct p.
Qed.

Lemma locked_inv_step t (cf cf' : config K V A E C W) :
  locked_inv cf → locked_step func key lookup clearing t cf = Some cf' →
  locked_inv cf'.
Proof.
  intros [I1 I2 I3]. unfold_locked_step.
  destruct (threads cf !! t) as [p|] eqn:Ht; [|done].
  assert (Hfree : ∀ q, holding q = true → locked_point q = true →
            lock cf = None →
            locked_inv (Config (shared cf) (Some t) (<[t:=q]> (threads cf)))).
  { intros q Hq Hpt Hl. split; simpl.
    - intros t' p'. destruct (decide (t' = t)) as [->|Hne]; [done|].
      rewrite lookup_insert_ne by done. intros Ht' Hh'.
      apply (I1 _ _ Ht') in Hh'. congruence.
    - intros t' [= <-]. exists q. by rewrite lookup_insert_eq.
    - intros t' p'. destruct (decide (t' = t)) as [->|Hne].
      + rewrite lookup_insert_eq. by intros [= <-].
      + rewrite lookup_insert_ne by done. apply I3. }
  assert (Hrel : ∀ q (s : state K C W), holding p = true → holding q = false →
            locked_point q = true →
            locked_inv (Config s None (<[t:=q]> (threads cf)))).
  { intros q s Hp Hq Hpt.
    assert (Hlk : lock cf = Some t) by (by apply (I1 _ _ Ht)).
    split; simpl.
    - intros t' p'. destruct (decide (t' = t)) as [->|Hne].
      + rewrite lookup_insert_eq. intros [= <-]. congruence.
      + rewrite lookup_insert_ne by done. intros Ht' Hh'.
        apply (I1 _ _ Ht') in Hh'. congruence.
    - done.
    - intros t' p'. destruct (decide (t' = t)) as [->|Hne].
      + rewrite lookup_insert_eq. by intros [= <-].
      + rewrite lookup_insert_ne by done. apply I3. }
  assert (Hout : ∀ q (s : state K C W), holding p = false → holding q = false →
            locked_point q = true →
            locked_inv (Config s (lock cf) (<[t:=q]> (threads cf)))).
  { intros q s Hp Hq Hpt. split; simpl.
    - intros t' p'. destruct (decide (t' = t)) as [->|Hne].
      + rewrite lookup_insert_eq. intros [= <-]. congruence.
      + rewrite lookup_insert_ne by done. apply I1.
    - intros t' Hl. destruct (I2 t' Hl) as (p' & Ht' & Hh').
      exists p'. split; [|done]. rewrite lookup_insert_ne; [done|].
      intros ->. congruence.
    - intros t' p'. destruct (decide (t' = t)) as [->|Hne].
      + rewrite lookup_insert_eq. by intros [= <-].
      + rewrite lookup_insert_ne by done. apply I3. }
  destruct p; try done;
    try (destruct (lock cf) eqn:Hl; [done|]; intros [= <-]; by apply Hfree).
  - destruct (lookup k (shared cf)) as [[r|] s]; intros [= <-];
      by apply Hrel.
  - destruct (func a (world (shared cf))) as [[v|e] w]; intros [= <-];
      by apply Hout.
  - destruct (_cached_locked_store k v (shared cf)) as [r s].
    intros [= <-]. by apply Hrel.
  - intros [= <-]. by apply Hrel.
Qed.

Lemma locked_reachable_inv (cf : config K V A E C W) :
  reachable (locked_step func key lookup clearing) cf → locked_inv cf.
Proof.
  intros (cf0 & sched & Hi & ->). apply run_inv.
  - intros t cf cf'. apply locked_inv_step.
  - by apply locked_initial_inv.
Qed.

(** A locked wrapper never deadlocks, and nobody waits for anything but
    the lock: in every run the thread inside a [with] block can move,
    and while the lock is free every call that has not finished can. *)
Theorem locked_never_deadlocks
    (cf : config K V A E C W) (t : nat) (p : pc K V A E)
    (Hr : reachable (locked_step func key lookup clearing) cf)
    (Ht : threads cf !! t = Some p)
    (Hf : finished p = false) :
  (lock cf = None ∨ lock cf = Some t →
     is_Some (locked_step func key lookup clearing t cf)) ∧
  (∀ t', lock cf = Some t' →
     is_Some (locked_step func key lookup clearing t' cf)) ∧
  ∃ t' cf', locked_step func key lookup clearing t' cf = Some cf'.
Proof.
  apply locked_reachable_inv in Hr as [I1 I2 I3].
  assert (Hholder : ∀ t' p', threads cf !! t' = Some p' →
            holding p' = true → locked_point p' = true →
            is_Some (locked_step func key lookup clearing t' cf)).
  { intros t' p' Ht' Hh' Hpt. unfold_locked_step. rewrite Ht'.
    destruct p'; try discriminate Hh'; try discriminate Hpt; try done.
    - by destruct (lookup k (shared cf)) as [[r|] s].
    - by destruct (_cached_locked_store k v (shared cf)). }
  assert (Hfree : lock cf = None →
            is_Some (locked_step func key lookup clearing t cf)).
  { intros Hl. pose proof (I3 _ _ Ht) as Hpt.
    unfold_locked_step. rewrite Ht, ?Hl.
    destruct p; try discriminate Hf; try discriminate Hpt; try done.
    - by destruct (lookup k (shared cf)) as [[r|] s].
    - by destruct (func a (world (shared cf))) as [[v|e] w].
    - by destruct (_cached_locked_store k v (shared cf)). }
  assert (Hheld : ∀ t', lock cf = Some t' →
            is_Some (locked_step func key lookup clearing t' cf)).
  { intros t' Hl. destruct (I2 t' Hl) as (p' & Ht' & Hh'). eauto. }
  split_and!; [intros [?|?]; eauto|done|].
  destruct (lock cf) as [t0|] eqn:Hl.
  - destruct (Hheld t0 eq_refl) as [cf' Hs]. eauto.
  - destruct (Hfree eq_refl) as [cf' Hs]. eauto.
Qed.

(** The step of a thread whose program point is known. *)
Lemma locked_step_at (cf : config K V A E C W) t p :
  threads cf !! t = Some p →
  locked_step func key lookup clearing t cf
  = match p with
    | Start a => acquire t (Lookup a (key a)) cf
    | Lookup a k =>
        match lookup k (shared cf) with
        | (Some result, s) => Some (release t (Done (Return result)) s cf)
        | (None, s) => Some (release t (Call a k) s cf)
        end
    | Call a k =>
        match func a (world (shared cf)) with
        | (Return v, w) =>
            Some (Config (set_world w (shared cf)) (lock cf)
                    (<[t:=Store k v]> (threads cf)))
        | (Raise e, w) =>
            Some (Config (set_world w (shared cf)) (lock cf)
                    (<[t:=Done (Raise e)]> (threads cf)))
        end
    | Store k v => acquire t (Storing k v) cf
    | Storing k v =>
        let '(r, s) := _cached_locked_store k v (shared cf) in
        Some (release t (Done (Return r)) s cf)
    | ClearStart => acquire t Clearing cf
    | Clearing => Some (release t Cleared (clearing (shared cf)) cf)
    | _ => None
    end.
Proof. intros Ht. unfold locked_step. by rewrite Ht. Qed.

Ltac solo_locked_step :=
  rewrite run_cons;
  erewrite locked_step_at by (first [eassumption|apply lookup_insert_eq]);
  unfold acquire, release; cbn -[run locked_step].

(** The steps of a call of a locked wrapper, taken with no other thread
    moving in between, amount to the lookup, the function and the store
    done one after the other. *)
Lemma solo_locked_steps
    (cf : config K V A E C W) (t : nat) (a : A) :
  threads cf !! t = Some (Start a) → lock cf = None →
  let cf' := run (locked_step func key lookup clearing) (replicate 5 t) cf in
  let call :=
    match lookup (key a) (shared cf) with
    | (Some result, s1) => (Return result, s1)
    | (None, s1) =>
        match func a (world s1) with
        | (Return v, w) =>
            let '(r, s2) := _cached_locked_store (key a) v (set_world w s1) in
            (Return r, s2)
        | (Raise e, w) => (Raise e, set_world w s1)
        end
    end in
  lock cf' = None ∧ shared cf' = call.2 ∧ threads cf' !! t = Some (Done call.1).
Proof.
  intros Ht Hl. cbv zeta. cbn [replicate].
  solo_locked_step. rewrite Hl. cbn -[run locked_step]. solo_locked_step.
  destruct (lookup (key a) (shared cf)) as [[r|] s1]; cbn -[run locked_step].
  { rewrite (run_stuck _ t 3).
    - cbn [shared lock threads]. split_and!; try done.
      apply lookup_insert_eq.
    - erewrite locked_step_at by apply lookup_insert_eq. done. }
  solo_locked_step.
  destruct (func a (world s1)) as [[v|e] w]; cbn -[run locked_step].
  - do 2 solo_locked_step.
    destruct (_cached_locked_store (key a) v (set_world w s1)) as [r s2].
    cbn -[run locked_step]. rewrite run_nil. cbn [shared lock threads].
    split_and!; try done. apply lookup_insert_eq.
  - rewrite (run_stuck _ t 2).
    + cbn [shared lock threads]. split_and!; try done.
      apply lookup_insert_eq.
    + erewrite locked_step_at by apply lookup_insert_eq. done.
Qed.
End LockedRuns.

Section LockedCalls.
Context {K : Type} `{Countable K}.
Context {V A E C W : Type}.
Context `{!CacheContract K V C}.
Variable func : A → W → outcome V E * W.
Variable key : A → K.

(** For both locked wrappers, the steps of a call taken with no other
    thread moving in between amount to the call as one caller sees it:
    the same outcome, the same cache and counters, and the lock free
    again. *)
Theorem solo_locked_steps_are_the_sequential_call
    (cf : config K V A E C W) (t : nat) (a : A)
    (Ht : threads cf !! t = Some (Start a))
    (Hl : lock cf = None) :
  let with_info := run (_cached_locked_info_step func key) (replicate 5 t) cf in
  let without := run (_cached_locked_step func key) (replicate 5 t) cf in
  (lock with_info = None ∧
   shared with_info = (_cached_locked_info_wrapper func key a (shared cf)).2 ∧
   threads with_info !! t
   = Some (Done (_cached_locked_info_wrapper func key a (shared cf)).1)) ∧
  (lock without = None ∧
   shared without = (_cached_locked_wrapper func key a (shared cf)).2 ∧
   threads without !! t
   = Some (Done (_cached_locked_wrapper func key a (shared cf)).1)).
Proof.
  split.
  - exact (solo_locked_steps func key _cached_locked_info_lookup
             _cached_locked_info_cache_clear cf t a Ht Hl).
  - exact (solo_locked_steps func key _cached_locked_lookup
             _cached_locked_cache_clear cf t a Ht Hl).
Qed.
End LockedCalls.

(** ** Objects that share a cache *)

Ltac unfold_methods :=
  unfold _cachedmethod_unlocked_wrapper, _cachedmethod_locked_wrapper,
    _cachedmethod_unlocked_cache_clear, _cachedmethod_locked_cache_clear.

Section SharedCache.
Context {K : Type} `{Countable K}.
Context {V A E C W I L Lk : Type} `{EqDecision L}.
Context `{!CacheContract K V C} `{!CacheLaws K V C}.
Variable method : I → A → W → outcome V E * W.
Variable cache_of : I → option L.
Variable mkey : I → A → K.
Variable lock_of : I → Lk.

Lemma method_miss_accepted
    (self : I) (a : A) (ms : mstate C W L Lk) (c : L) (v : V) (w : W) :
  cache_of self = Some c →
  contents (caches ms c) !! mkey self a = None →
  method self a (mworld ms) = (Return v, w) →
  (∀ c', contents c' = contents (caches ms c) →
     is_Some (setitem (mkey self a) v c')) →
  busy ms (lock_of self) = false →
  (∃ ms', _cachedmethod_unlocked_wrapper method cache_of mkey self a ms
          = (Return v, ms') ∧
     contents (caches ms' c) !! mkey self a = Some v ∧
     busy ms' = busy ms ∧ mworld ms' = w) ∧
  (∃ ms', _cachedmethod_locked_wrapper method cache_of mkey lock_of self a ms
          = Some (Return v, ms') ∧
     contents (caches ms' c) !! mkey self a = Some v ∧
     busy ms' = busy ms ∧ mworld ms' = w).
Proof.
  intros Hc Hmiss Hf Hacc Hfree. unfold_methods. rewrite Hc, Hfree.
  destruct (getitem (mkey self a) (caches ms c)) as [r c1] eqn:Hg.
  apply getitem_inv in Hg as [-> Hc1]. rewrite Hmiss. simpl.
  rewrite Hf. simpl. rewrite fn_lookup_insert, Hfree. split.
  - destruct (Hacc c1 Hc1) as [c2 Hc2]. rewrite Hc2.
    eexists. split_and!; try reflexivity. simpl.
    rewrite fn_lookup_insert. by eapply setitem_binds.
  - destruct (setdefault_absent_accepted (mkey self a) v c1)
      as (c2 & -> & Hc2); [congruence|intros; apply Hacc; congruence|].
    eexists. split_and!; try reflexivity. simpl.
    by rewrite fn_lookup_insert.
Qed.

Lemma method_hit
    (self : I) (a : A) (ms : mstate C W L Lk) (c : L) (r : V) :
  cache_of self = Some c →
  contents (caches ms c) !! mkey self a = Some r →
  busy ms (lock_of self) = false →
  (∃ ms', _cachedmethod_unlocked_wrapper method cache_of mkey self a ms
          = (Return r, ms') ∧
     contents (caches ms' c) = contents (caches ms c) ∧
     busy ms' = busy ms ∧ mworld ms' = mworld ms) ∧
  (∃ ms', _cachedmethod_locked_wrapper method cache_of mkey lock_of self a ms
          = Some (Return r, ms') ∧
     contents (caches ms' c) = contents (caches ms c) ∧
     busy ms' = busy ms ∧ mworld ms' = mworld ms).
Proof.
  intros Hc Hr Hfree. unfold_methods. rewrite Hc, Hfree.
  destruct (getitem (mkey self a) (caches ms c)) as [r' c1] eqn:Hg.
  apply getitem_inv in Hg as [-> Hc1]. rewrite Hr.
  split; eexists; split_and!; try reflexivity; simpl;
    by rewrite fn_lookup_insert.
Qed.

(** Objects whose [cache(self)] is the same cache object share its
    entries: what a call through one of them stored, a call through the
    other with the same key returns, without calling the method. *)
Theorem instances_sharing_a_cache_share_entries
    (selfA selfB : I) (a b : A) (ms : mstate C W L Lk) (c : L) (v : V) (w : W)
    (HA : cache_of selfA = Some c)
    (HB : cache_of selfB = Some c)
    (Hkey : mkey selfB b = mkey selfA a)
    (Hmiss : contents (caches ms c) !! mkey selfA a = None)
    (Hf : method selfA a (mworld ms) = (Return v, w))
    (Hacc : ∀ c', contents c' = contents (caches ms c) →
              is_Some (setitem (mkey selfA a) v c'))
    (HfreeA : busy ms (lock_of selfA) = false)
    (HfreeB : busy ms (lock_of selfB) = false) :
  (∃ ms1 ms2,
     _cachedmethod_unlocked_wrapper method cache_of mkey selfA a ms
     = (Return v, ms1) ∧
     _cachedmethod_unlocked_wrapper method cache_of mkey selfB b ms1
     = (Return v, ms2) ∧
     mworld ms1 = w ∧ mworld ms2 = w) ∧
  (∃ ms1 ms2,
     _cachedmethod_locked_wrapper method cache_of mkey lock_of selfA a ms
     = Some (Return v, ms1) ∧
     _cachedmethod_locked_wrapper method cache_of mkey lock_of selfB b ms1
     = Some (Return v, ms2) ∧
     mworld ms1 = w ∧ mworld ms2 = w).
Proof.
  destruct (method_miss_accepted selfA a ms c v w)
    as [(u1 & Hu1 & Hku & Hbu & Hwu) (l1 & Hl1 & Hkl & Hbl & Hwl)];
    [done..|].
  split.
  - destruct (method_hit selfB b u1 c v) as [(u2 & Hu2 & _ & _ & Hw2) _];
      [done|by rewrite Hkey|by rewrite Hbu|].
    exists u1, u2. split_and!; try done. congruence.
  - destruct (method_hit selfB b l1 c v) as [_ (l2 & Hl2 & _ & _ & Hw2)];
      [done|by rewrite Hkey|by rewrite Hbl|].
    exists l1, l2. split_and!; try done. congruence.
Qed.
End SharedCache.

(** ** Counting, whatever the cache and the function do *)

Section Counting.
Context {K : Type} `{Countable K}.
Context {V A E C W Info : Type}.
Context `{!CacheContract K V C} `{!CacheLaws K V C}.
Variable func : A → W → outcome V E * W.
Variable key : A → K.
Variable info : nat → nat → Info.
Variable KeyError : K → E.

Lemma call_counts_once (s : strategy) (a : A) (st : state K C W) :
  key a ∉ pending st →
  ∃ o st', call func key KeyError s a st = Some (o, st') ∧
    pending st' = pending st ∧
    hits st ≤ hits st' ∧ misses st ≤ misses st' ∧
    hits st' + misses st'
    = (if has_cache_info s then S (hits st + misses st)
       else hits st + misses st).
Proof.
  intros Hp. destruct (caching s) eqn:Hs.
  - destruct (contents (cache st) !! key a) as [r|] eqn:Hk.
    + destruct (call_hit func key KeyError s a st r)
        as (st' & -> & _ & ? & _ & Hh & Hm); [done..|].
      eexists _, _. split; [done|]. unfold count in *.
      destruct (has_cache_info s); split_and!; try done; lia.
    + destruct (call_miss func key KeyError s a st)
        as (st' & -> & _ & ? & Hh & Hm & _); [done..|].
      eexists _, _. split; [done|]. unfold count in *.
      destruct (has_cache_info s); split_and!; try done; lia.
  - destruct s; try discriminate Hs; simpl;
      unfold _uncached_info_wrapper, _uncached_wrapper; simpl;
      destruct (func a (world st)) as [o w]; eexists _, _;
      (split; [reflexivity|]); simpl; split_and!; try done; lia.
Qed.

(** With counters every call is counted exactly once, as a hit or as a
    miss, whatever the cache keeps or drops and whether the function
    returns or raises: after N calls [hits + misses] has grown by N, and
    neither counter has gone down. *)
Theorem every_call_is_counted_once
    (s : strategy) (l : list A) (st : state K C W)
    (Hs : has_cache_info s = true)
    (Hp : pending st = ∅) :
  ∃ os st', calls func key KeyError s l st = Some (os, st') ∧
    length os = length l ∧
    hits st' + misses st' = hits st + misses st + length l ∧
    hits st ≤ hits st' ∧ misses st ≤ misses st'.
Proof.
  revert st Hp. induction l as [|a l IH]; intros st Hp; simpl.
  - eexists _, _. split_and!; try done; lia.
  - destruct (call_counts_once s a st) as (o & st1 & -> & Hp1 & ? & ? & Hc);
      [set_solver|].
    rewrite Hs in Hc.
    destruct (IH st1) as (os & st2 & -> & Hlen & ? & ? & ?); [congruence|].
    eexists _, _. split_and!; try done; simpl; lia.
Qed.
End Counting.

(** ** The wrapper at rest *)

Section AtRest.
Context {K : Type} `{Countable K}.
Context {V A E C W : Type}.
Context `{!CacheContract K V C}.
Variable func : A → W → outcome V E * W.
Variable key : A → K.
Variable KeyError : K → E.

(** When every call of a run of the condition-gated wrapper has
    finished, returned or raised, the lock is free and the pending set
    is empty: nothing a call took is left behind. *)
Theorem finished_calls_leave_nothing_behind
    (cf : config K V A E C W)
    (Hr : reachable (cond_step func key KeyError) cf)
    (Hall : map_Forall (λ _ p, finished p = true) (threads cf)) :
  lock cf = None ∧ pending (shared cf) = ∅.
Proof.
  apply reachable_inv in Hr as [I1 I2 I3 I4 I5 I7 I8 I9]. split.
  - destruct (lock cf) as [t|] eqn:Hl; [|done].
    destruct (I2 t eq_refl) as (p & Ht & Hh).
    apply Hall in Ht. by destruct p.
  - apply set_eq. intros k. split; [|set_solver].
    intros Hk. destruct (I5 k Hk) as (t & p & Ht & Ho).
    apply Hall in Ht. by destruct p.
Qed.
End AtRest.

(** * The properties at work *)

Lemma two_callers_initial : initial two_callers.
Proof.
  repeat split.
  apply map_Forall_insert_2; [done|].
  apply map_Forall_insert_2; [done|]. apply map_Forall_empty.
Defined.

Lemma one_computing_reachable :
  reachable (cond_step failing by_argument key_error) one_computing.
Proof.
  exists two_callers, [0; 0; 0; 1; 1].
  split; [apply two_callers_initial|reflexivity].
Defined.

(** The raising call of thread 0 goes on to the cleanup. *)
Lemma C1_witness :
  cond_step failing by_argument key_error 0 one_computing
  = Some (Config (set_world 1 (shared one_computing)) (lock one_computing)
            (<[0:=Finally 5 (Raise 5)]> (threads one_computing))).
Proof.
  refine (proj1 (C1_condition_gated_cleanup_on_failure
                   failing by_argument key_error one_computing 0 5 5 5 1
                   one_computing_reachable _ _)).
  - vm_compute. reflexivity.
  - reflexivity.
Defined.

(** Thread 0, about to run the function for key 5, is the only one to
    have that key pending. *)
Lemma C7_witness :
  5 = by_argument 5 ∧ 5 ∈ pending (shared one_computing) ∧
  ∀ t' p', threads one_computing !! t' = Some p' → owns p' = Some 5 → t' = 0.
Proof.
  refine (proj2 (proj2 (proj2 (proj2
            (C7_condition_gated_ordering failing by_argument key_error
               one_computing 0 one_computing_reachable)))) 5 5 _).
  vm_compute. reflexivity.
Defined.







(** With the cache that has no room, a call returns what it computed,
    and three calls are three misses. *)
Lemma C4_witness :
  (∃ st', call double by_argument key_error UnlockedInfo 3 (fresh () 0)
          = Some (Return 6, st') ∧
     contents (K:=nat) (V:=nat) (cache st')
     = contents (cache (fresh () 0 : state nat () nat)) ∧
     hits st' = 0 ∧ misses st' = 1) ∧
  (∃ st', calls double by_argument key_error CondInfo [3; 3; 4] (fresh () 0)
          = Some ((direct double [3; 3; 4] 0).1, st') ∧
     contents (K:=nat) (V:=nat) (cache st') = ∅ ∧
     hits st' = 0 ∧ misses st' = 3).
Proof.
  pose proof (C4_capacity_rejection_is_silent (C:=()) double by_argument
                key_error double_method cache_or_none method_key own_lock)
    as (Hcall & _ & Hcalls).
  split.
  - apply (Hcall UnlockedInfo 3 (fresh () 0) 6 1); try reflexivity.
    apply not_elem_of_empty.
  - apply (Hcalls full_cache_rejecting CondInfo [3; 3; 4] (fresh () 0));
      reflexivity.
Defined.

(** Three calls on two keys: two misses and one hit. *)
Lemma C5_witness :
  ∃ os st', calls double by_argument key_error LockedInfo [1; 2; 1]
              (fresh (∅ : gmap nat nat) 0) = Some (os, st') ∧
    cache_info hits_misses LockedInfo st'
    = Some (hits_misses
              (3 - size (list_to_set (by_argument <$> [1; 2; 1]) : gset nat))
              (size (list_to_set (by_argument <$> [1; 2; 1]) : gset nat))) ∧
    misses st' = size (list_to_set (by_argument <$> [1; 2; 1]) : gset nat) ∧
    hits st' = 3 - size (list_to_set (by_argument <$> [1; 2; 1]) : gset nat) ∧
    size (list_to_set (by_argument <$> [1; 2; 1]) : gset nat) ≤ 3.
Proof.
  apply (C5_hit_miss_accounting double by_argument hits_misses key_error
           dict_cache_retaining LockedInfo [1; 2; 1] ∅ 0).
  - reflexivity.
  - reflexivity.
  - intros a w. by eexists _, _.
  - reflexivity.
Defined.

(** C5, as stated, fails when the function raises: two calls on one key
    are two misses and no hit, where the claim has one of each. *)
Lemma C5_counterexample :
  ∃ os st', calls failing by_argument key_error UnlockedInfo [0; 0]
              (fresh (∅ : gmap nat nat) 0) = Some (os, st') ∧
    os = [Raise 0; Raise 0] ∧ misses st' = 2 ∧ hits st' = 0 ∧
    size (list_to_set (by_argument <$> [0; 0]) : gset nat) = 1 ∧
    ¬ (misses st' = size (list_to_set (by_argument <$> [0; 0]) : gset nat) ∧
       hits st'
       = length [0; 0]
         - size (list_to_set (by_argument <$> [0; 0]) : gset nat)).
Proof.
  eexists _, _. split; [reflexivity|]. vm_compute.
  split_and!; try reflexivity. intros [? ?]. discriminate.
Qed.

(** After [cache_clear], [cache_info] of a locked wrapper gives (0, 0). *)
Lemma C6_witness :
  cache_info hits_misses LockedInfo
    (cache_clear LockedInfo (State ({[1 := 2]} : gmap nat nat) 3 4 ∅ 0))
  = Some (hits_misses 0 0).
Proof.
  refine (proj1 (proj2 (C6_cache_clear_idempotent_and_resets
                          double by_argument hits_misses key_error LockedInfo
                          (State ({[1 := 2]} : gmap nat nat) 3 4 ∅ 0)
                          one_clearing 0 _))).
  vm_compute. reflexivity.
Defined.

(** Object 0 has no cache: its call is the method's; object 1 caches. *)
Lemma C8_witness :
  _cachedmethod_unlocked_wrapper double_method cache_or_none method_key
    0 7 locks_free
  = ((double_method 0 7 0).1, set_mworld (double_method 0 7 0).2 locks_free).
Proof.
  refine (proj1 (proj1 (C8_method_bound_bypass double_method cache_or_none
                          method_key own_lock 0 1 7 locks_free 0 _ _ _)));
    reflexivity.
Defined.

(** A miss on a raising function is counted. *)
Lemma C9_witness :
  ∃ st', call failing by_argument key_error CondInfo 4
           (fresh (∅ : gmap nat nat) 0) = Some (Raise 4, st') ∧
    misses st' = 1 ∧ hits st' = 0 ∧
    cache st' = (getitem 4 (∅ : gmap nat nat)).2 ∧
    contents (cache st') = contents (∅ : gmap nat nat) ∧
    pending st' = ∅ ∧ world st' = 1.
Proof.
  apply (C9_miss_counted_before_failure failing by_argument key_error
           CondInfo 4 (fresh (∅ : gmap nat nat) 0) 4 1); try reflexivity.
  apply not_elem_of_empty.
Defined.

(** Clearing through object 0, which has no cache, changes nothing;
    through object 1 it empties the cache at location 0. *)
Lemma C10_witness :
  _cachedmethod_locked_cache_clear (K:=nat) (V:=nat) cache_or_none own_lock
    0 locks_free = Some locks_free ∧
  contents (caches (_cachedmethod_unlocked_cache_clear (K:=nat) (V:=nat)
                      cache_or_none 1 locks_free) 0) = ∅.
Proof.
  split.
  - refine (proj1 (proj2 (proj1 (C10_method_cache_clear (K:=nat) (V:=nat)
                                   cache_or_none own_lock 0 locks_free) _))).
    reflexivity.
  - refine (proj1 (proj2 (proj1 (proj2 (C10_method_cache_clear
              (K:=nat) (V:=nat) cache_or_none own_lock 1 locks_free)
              0 _)))).
    reflexivity.
Defined.

Lemma one_caller_initial : initial one_caller.
Proof.
  repeat split. apply map_Forall_insert_2; [done|]. apply map_Forall_empty.
Defined.

(** Four calls on three keys through a cache of two entries: each
    returns twice its argument. *)
Lemma memoized_calls_witness :
  ∃ st', calls double by_argument key_error LockedInfo [1; 2; 3; 1]
           (fresh (Flushing 2 ∅) 0)
         = Some ((λ a, Return (2 * a)) <$> [1; 2; 3; 1], st') ∧
    coherent (λ a, 2 * a) by_argument (contents (cache st')) ∧
    pending st' = ∅.
Proof.
  refine (memoized_calls_return_the_functions_values double by_argument
           key_error (λ a, 2 * a) LockedInfo [1; 2; 3; 1]
           (fresh (Flushing 2 ∅) 0) _ _ _ _).
  - reflexivity.
  - intros a b Hab. unfold by_argument in Hab. by rewrite Hab.
  - intros a v Hv. simpl in Hv. rewrite lookup_empty in Hv. discriminate.
  - reflexivity.
Defined.

(** A hit on key 3 returns the stored 7, also around a function that
    would raise. *)
Lemma hit_witness :
  ∃ st', call double by_argument key_error UnlockedInfo 3
           (fresh ({[3 := 7]} : gmap nat nat) 0) = Some (Return 7, st') ∧
    call failing by_argument key_error UnlockedInfo 3
      (fresh ({[3 := 7]} : gmap nat nat) 0) = Some (Return 7, st') ∧
    world st' = 0 ∧
    contents (cache st') = contents ({[3 := 7]} : gmap nat nat) ∧
    hits st' = 1 ∧ misses st' = 0.
Proof.
  refine (hit_does_not_call_the_function double by_argument key_error
           UnlockedInfo 3 (fresh ({[3 := 7]} : gmap nat nat) 0) 7 failing _ _ _).
  - reflexivity.
  - vm_compute. reflexivity.
  - apply not_elem_of_empty.
Defined.

(** A miss around [failing] raises what [failing] raises. *)
Lemma miss_witness :
  ∃ st', call failing by_argument key_error Locked 3
           (fresh (∅ : gmap nat nat) 0) = Some (Raise 3, st') ∧
    world st' = 1 ∧ pending st' = ∅ ∧ hits st' = 0 ∧ misses st' = 0.
Proof.
  refine (miss_gives_the_functions_outcome failing by_argument key_error
           Locked 3 (fresh (∅ : gmap nat nat) 0) _ _).
  - reflexivity.
  - apply not_elem_of_empty.
Defined.

(** Two calls with argument 4: the function runs once. *)
Lemma stored_value_witness :
  ∃ st', calls double by_argument key_error CondInfo [4; 4]
           (fresh (∅ : gmap nat nat) 0)
         = Some ([Return 8; Return 8], st') ∧
    world st' = 1 ∧ contents (cache st') !! by_argument 4 = Some 8 ∧
    hits st' = 1 ∧ misses st' = 1.
Proof.
  refine (stored_value_is_found_again double by_argument key_error
           CondInfo 4 4 (fresh (∅ : gmap nat nat) 0) 8 1 _ _ _ _ _ _).
  - reflexivity.
  - reflexivity.
  - reflexivity.
  - intros c _. by eexists.
  - apply not_elem_of_empty.
  - reflexivity.
Defined.

(** Two calls with argument 4 around [failing]: it runs twice. *)
Lemma failure_witness :
  ∃ st', calls failing by_argument key_error UnlockedInfo [4; 4]
           (fresh (∅ : gmap nat nat) 0)
         = Some ([Raise 4; (failing 4 1).1], st') ∧
    world st' = (failing 4 1).2 ∧ hits st' = 0 ∧ misses st' = 2.
Proof.
  refine (failure_is_not_cached failing by_argument key_error
           UnlockedInfo 4 4 (fresh (∅ : gmap nat nat) 0) 4 1 _ _ _ _).
  - reflexivity.
  - reflexivity.
  - apply not_elem_of_empty.
  - reflexivity.
Defined.

(** Three uncached calls: three misses, no hit. *)
Lemma uncached_witness :
  ∃ st', calls double by_argument key_error UncachedInfo [1; 1; 2]
           (fresh (∅ : gmap nat nat) 0)
         = Some ((direct double [1; 1; 2] 0).1, st') ∧
    world st' = (direct double [1; 1; 2] 0).2 ∧
    cache st' = ∅ ∧ pending st' = ∅ ∧ hits st' = 0 ∧ misses st' = 3 ∧
    cache_info hits_misses UncachedInfo st' = Some (hits_misses 0 3).
Proof.
  refine (uncached_calls_are_direct double by_argument hits_misses key_error
           UncachedInfo [1; 1; 2] (fresh (∅ : gmap nat nat) 0) _).
  reflexivity.
Defined.

(** Key 3 is cached; after [cache_clear] the call computes again. *)
Lemma call_after_clear_witness :
  ∃ st', call double by_argument key_error LockedInfo 3
           (cache_clear LockedInfo (State ({[3 := 7]} : gmap nat nat) 5 1 ∅ 0))
         = Some ((double 3 0).1, st') ∧
    world st' = (double 3 0).2 ∧
    cache_info hits_misses LockedInfo st' = Some (hits_misses 0 1).
Proof.
  refine (call_after_clear_misses double by_argument hits_misses key_error
           LockedInfo 3 (State ({[3 := 7]} : gmap nat nat) 5 1 ∅ 0) _).
  apply not_elem_of_empty.
Defined.

(** Thread 1 sleeps on key 5, which is pending; thread 0, about to run
    the function for it, can move, and its steps wake thread 1. *)
Lemma never_deadlocks_witness :
  (∃ t' cf', cond_step failing by_argument key_error t' one_computing
             = Some cf') ∧
  (∀ a k, (Blocked 5 5 : pc nat nat nat nat) = Blocked a k →
     k ∈ pending (shared one_computing) ∧
     (∃ t1 p1, t1 ≠ 1 ∧ threads one_computing !! t1 = Some p1 ∧
        owns p1 = Some k ∧ finished p1 = false ∧
        ∀ a' k', p1 ≠ Blocked a' k') ∧
     ∃ sched,
       threads (run (cond_step failing by_argument key_error) sched
                  one_computing) !! 1
       = Some (Notified a k)).
Proof.
  refine (condition_gated_never_deadlocks failing by_argument key_error
           one_computing 1 (Blocked 5 5) one_computing_reachable _ _).
  - vm_compute. reflexivity.
  - reflexivity.
Defined.

(** The raising call finds its key pending at the cleanup. *)
Lemma cleanup_witness :
  5 ∈ pending (shared one_cleaning) ∧
  _cached_cond_info_cleanup 5 (shared one_cleaning)
  = Some (set_pending (pending (shared one_cleaning) ∖ {[5]})
            (shared one_cleaning)) ∧
  cond_step failing by_argument key_error 0 one_cleaning
  = Some (Config (set_pending (pending (shared one_cleaning) ∖ {[5]})
                    (shared one_cleaning)) None
            (<[0:=Done (Raise 5)]> (notify_all (threads one_cleaning)))).
Proof.
  refine (cleanup_never_raises failing by_argument key_error one_cleaning
           0 5 (Raise 5) _ _).
  - exists one_caller, [0; 0; 0; 0; 0].
    split; [apply one_caller_initial|reflexivity].
  - vm_compute. reflexivity.
Defined.

(** Eight steps of the one caller are its call. *)
Lemma solo_steps_witness :
  let cf' := run (cond_step double by_argument key_error) (replicate 8 0)
               one_caller in
  lock cf' = None ∧
  match _cached_cond_info_wrapper double by_argument key_error 5
          (shared one_caller) with
  | Some (o, st') => shared cf' = st' ∧ threads cf' !! 0 = Some (Done o)
  | None =>
      shared cf' = shared one_caller ∧
      threads cf' !! 0 = Some (Blocked 5 (by_argument 5))
  end.
Proof.
  refine (solo_steps_are_the_sequential_call double by_argument key_error
           one_caller 0 5 _ _).
  - vm_compute. reflexivity.
  - reflexivity.
Defined.

Lemma one_locked_computing_reachable :
  reachable (locked_step double by_argument _cached_locked_info_lookup
               _cached_locked_info_cache_clear) one_locked_computing.
Proof.
  exists one_caller, [0; 0]. split; [apply one_caller_initial|reflexivity].
Defined.

(** The caller about to run the function can move. *)
Lemma locked_never_deadlocks_witness :
  ∃ t' cf', locked_step double by_argument _cached_locked_info_lookup
              _cached_locked_info_cache_clear t' one_locked_computing
            = Some cf'.
Proof.
  refine (proj2 (proj2 (locked_never_deadlocks double by_argument
                          _cached_locked_info_lookup
                          _cached_locked_info_cache_clear
                          one_locked_computing 0 (Call 5 5)
                          one_locked_computing_reachable _ _))).
  - vm_compute. reflexivity.
  - reflexivity.
Defined.

(** Five steps of the one caller of a locked wrapper are its call. *)
Lemma solo_locked_steps_witness :
  threads (run (_cached_locked_info_step double by_argument) (replicate 5 0)
             one_caller) !! 0
  = Some (Done (_cached_locked_info_wrapper double by_argument 5
                  (shared one_caller)).1).
Proof.
  refine (proj2 (proj2 (proj1 (solo_locked_steps_are_the_sequential_call
                                 double by_argument one_caller 0 5 _ _)))).
  - vm_compute. reflexivity.
  - reflexivity.
Defined.

(** Objects 1 and 2 share the cache at location 0. *)
Lemma shared_cache_witness :
  ∃ ms1 ms2,
    _cachedmethod_unlocked_wrapper double_method cache_or_none method_key
      1 7 locks_free = (Return 14, ms1) ∧
    _cachedmethod_unlocked_wrapper double_method cache_or_none method_key
      2 7 ms1 = (Return 14, ms2) ∧
    mworld ms1 = 1 ∧ mworld ms2 = 1.
Proof.
  refine (proj1 (instances_sharing_a_cache_share_entries double_method
                   cache_or_none method_key own_lock 1 2 7 7 locks_free 0
                   14 1 _ _ _ _ _ _ _ _)); try reflexivity.
  intros c' _. by eexists.
Defined.

(** The one caller has returned: the lock is free, nothing is pending. *)
Lemma at_rest_witness :
  lock (run (cond_step double by_argument key_error) (replicate 8 0)
          one_caller) = None ∧
  pending (shared (run (cond_step double by_argument key_error)
                     (replicate 8 0) one_caller)) = ∅.
Proof.
  refine (finished_calls_leave_nothing_behind double by_argument key_error
            (run (cond_step double by_argument key_error) (replicate 8 0)
               one_caller) _ _).
  - exists one_caller, (replicate 8 0).
    split; [apply one_caller_initial|reflexivity].
  - apply (bool_decide_unpack _). vm_compute. exact I.
Defined.

(** Three calls through a cache with no room: three misses. *)
Lemma counted_once_witness :
  ∃ os st', calls failing by_argument key_error CondInfo [1; 1; 2]
              (fresh (Flushing 1 ∅) 0) = Some (os, st') ∧
    length os = 3 ∧ hits st' + misses st' = 0 + 0 + 3 ∧
    0 ≤ hits st' ∧ 0 ≤ misses st'.
Proof.
  refine (every_call_is_counted_once failing by_argument key_error
            CondInfo [1; 1; 2] (fresh (Flushing 1 ∅) 0) _ _); reflexivity.
Defined.
